(** * ClassifyHub: the GitHub API cache, stale-lock recovery and the batch
    scheduler

    A shallow embedding of [github.py], [utility.py] and [processor.py],
    with the properties of the data-access and coordination layer stated
    and proved against it. *)

From Stdlib Require Import ZArith QArith String List Bool Lia Lqa.
From stdpp Require Import gmap strings list fin_maps.

Local Set Warnings "-register-all,-clear-no-such-hyp".
Local Open Scope string_scope.
Local Open Scope Z_scope.

(** ** JSON values

    What [json.load] and [requests.Response.json] produce.  Objects are
    finite maps from strings, as Python dicts are. *)

Inductive json : Type :=
| JNull
| JBool (b : bool)
| JNum (n : Z)
| JStr (s : string)
| JList (l : list json)
| JDict (d : gmap string json).

(** The Python exceptions of the modelled functions.  [github.py]
    declares [GithubConnectionError] and raises it nowhere. *)
Inductive exn : Type :=
| GithubError
| GithubConnectionError
| ValueError
| TypeError
| KeyError
| LockTimeout
| LockFailed
| NotLocked.

Inductive outcome (A : Type) : Type :=
| Val (a : A)
| Raise (e : exn).
Arguments Val {A} a.
Arguments Raise {A} e.

(** [needle in s] for two Python strings. *)
Definition str_contains (needle s : string) : bool :=
  match String.index 0 needle s with
  | Some _ => true
  | None => false
  end.

Definition json_is_str (s : string) (v : json) : bool :=
  match v with
  | JStr t => String.eqb s t
  | _ => false
  end.

(** [key in v] for a string [key] and a deserialised JSON value [v]. *)
Definition py_in (key : string) (v : json) : outcome bool :=
  match v with
  | JDict d => Val (bool_decide (is_Some (d !! key)))
  | JList l => Val (existsb (json_is_str key) l)
  | JStr s => Val (str_contains key s)
  | JNull | JBool _ | JNum _ => Raise TypeError
  end.

(** [v[key]] for a string [key]. *)
Definition py_getitem (v : json) (key : string) : outcome json :=
  match v with
  | JDict d =>
      match d !! key with
      | Some x => Val x
      | None => Raise KeyError
      end
  | _ => Raise TypeError
  end.

(** ** Configuration ([configserver._CONGIF], the entries used here) *)

Record Config : Type := {
  cache_path : string;
  maximum_cache_age : Z;
  force_cache_update : bool;
  number_worker : Z
}.

Definition default_config : Config :=
  {| cache_path := "./cache";
     maximum_cache_age := 7;
     force_cache_update := false;
     number_worker := 0 |}.

(** ** The cache directory

    The file system is a finite map from paths to file contents.  Three
    kinds of content are told apart, by what [json.load] makes of them:
    a JSON document written by [json.dump], the zero-length file that
    [open(..., 'w')] alone leaves behind (the error marker), and any
    other text, which [json.load] rejects.  Opening, writing and removing
    are taken to succeed: the cache directory exists and is writable. *)

Inductive file : Type :=
| FData (data : json)
| FEmpty
| FGarbage.

(** [json.load(file)]; [None] when it raises. *)
Definition json_load (f : file) : option json :=
  match f with
  | FData data => Some data
  | FEmpty | FGarbage => None
  end.

(** The journal [_cache_time] maps data keys to day numbers.  It is
    serialised as a JSON object of integers. *)
Definition journal_to_json (m : gmap string Z) : json := JDict (JNum <$> m).

Definition json_num (v : json) : option Z :=
  match v with
  | JNum n => Some n
  | _ => None
  end.

(** Reading a journal back.  METADATA is written by [_save_metadata]
    alone, from a journal.  Of a document that came from elsewhere, the
    entries that are not integers are left out, and a document that is
    no object at all is no journal. *)
Definition json_to_journal (v : json) : option (gmap string Z) :=
  match v with
  | JDict d => Some (omap json_num d)
  | _ => None
  end.

(** ** The remote

    One call of [requests.get] either raises (no connection) or returns a
    response with a status code and a body; [body = None] is a body that
    [r.json()] cannot decode. *)

Inductive fetch_outcome : Type :=
| ConnectionFailed
| Response (status_code : Z) (body : option json).

Record GithubSecret : Type := {
  secret_available : bool;
  secret : string;
  user : string
}.

(** A request as sent: the url and the [auth] pair, when given. *)
Record request : Type := {
  req_url : string;
  req_auth : option (string * string)
}.

Record Github : Type := {
  _dev : string;
  _repo : string;
  _path : string;
  _cache_time : gmap string Z;
  _github_secret : GithubSecret
}.

Definition with_cache_time (g : Github) (m : gmap string Z) : Github :=
  {| _dev := _dev g; _repo := _repo g; _path := _path g;
     _cache_time := m; _github_secret := _github_secret g |}.

(** [Github.__init__], given the credentials read by [GithubSecret()]. *)
Definition Github_init (cfg : Config) (sec : GithubSecret) (dev repo : string) : Github :=
  {| _dev := dev;
     _repo := repo;
     _path := cache_path cfg ++ "/" ++ dev ++ "/" ++ repo ++ "/";
     _cache_time := ∅;
     _github_secret := sec |}.

(** [Github.__eq__] on two [Github] objects. *)
Definition Github_eq (a b : Github) : bool :=
  String.eqb (_dev a) (_dev b) && String.eqb (_repo a) (_repo b).

(** ** A state-and-exception monad

    A Python function that reads and writes a state of type [St] and
    either returns or raises. *)

Definition prog (St A : Type) : Type := St → outcome A * St.

Section Prog.
Context {St : Type}.

Definition ret {A} (a : A) : prog St A := λ s, (Val a, s).
Definition raise {A} (e : exn) : prog St A := λ s, (Raise e, s).
Definition lift {A} (o : outcome A) : prog St A := λ s, (o, s).
Definition bind {A B} (m : prog St A) (k : A → prog St B) : prog St B :=
  λ s, match m s with
       | (Val a, s') => k a s'
       | (Raise e, s') => (Raise e, s')
       end.
(** [try: m  except <classes>: h], the handler choosing by exception. *)
Definition catch {A} (m : prog St A) (h : exn → prog St A) : prog St A :=
  λ s, match m s with
       | (Val a, s') => (Val a, s')
       | (Raise e, s') => h e s'
       end.
(** [try: m  except: h], catching everything. *)
Definition try_except {A} (m : prog St A) (h : prog St A) : prog St A :=
  catch m (λ _, h).
End Prog.

Declare Scope py_scope.
Delimit Scope py_scope with py.
Notation "x <~ m ;; k" := (bind m (λ x, k))
  (at level 100, m at next level, right associativity) : py_scope.
Notation "m ;;; k" := (bind m (λ _, k))
  (at level 100, right associativity) : py_scope.

(** What a method of [Github] can change: the object itself, the disk,
    and the requests sent so far (latest first). *)
Record State : Type := {
  self : Github;
  fs : gmap string file;
  requests : list request
}.

Abbreviation M := (prog State).

Definition get_self : M Github := λ s, (Val (self s), s).
Definition set_cache_time (m : gmap string Z) : M unit :=
  λ s, (Val tt, {| self := with_cache_time (self s) m; fs := fs s; requests := requests s |}).
Definition path_exists (p : string) : M bool :=
  λ s, (Val (bool_decide (is_Some (fs s !! p))), s).
Definition read_file (p : string) : M (option file) :=
  λ s, (Val (fs s !! p), s).
Definition write_file (p : string) (f : file) : M unit :=
  λ s, (Val tt, {| self := self s; fs := <[p := f]> (fs s); requests := requests s |}).
Definition remove_file (p : string) : M unit :=
  λ s, (Val tt, {| self := self s; fs := delete p (fs s); requests := requests s |}).
Definition send (r : request) : M unit :=
  λ s, (Val tt, {| self := self s; fs := fs s; requests := r :: requests s |}).
(** [r.json()] *)
Definition r_json (body : option json) : outcome json :=
  match body with
  | Some data => Val data
  | None => Raise ValueError
  end.

Module Import GithubMethods.
Section Methods.

(** The configuration, and [datetime.date.today().toordinal()]. *)
Variable cfg : Config.
Variable today : Z.

Local Open Scope py_scope.

(** Locks are not part of [State].  The two calls of
    [utility.check_stale_lock] that open [_get_data] touch lock files
    only and are modelled on their own, in [Utility]; [with lock:] gives
    its body the files to itself, so the body runs here as one state
    transformer. *)

Definition _read_metadata : M unit :=
  g <~ get_self ;;
  f <~ read_file (_path g ++ "METADATA") ;;
  match f with
  | Some f =>
      match json_load f ≫= json_to_journal with
      | Some m => set_cache_time m
      | None => set_cache_time ∅
      end
  | None => ret tt
  end.

Definition _save_metadata : M unit :=
  g <~ get_self ;;
  write_file (_path g ++ "METADATA") (FData (journal_to_json (_cache_time g))).

Definition _test_cache_valid (data_key : string) : M bool :=
  _read_metadata ;;;
  g <~ get_self ;;
  let age :=
    match _cache_time g !! data_key with
    | Some d => Z.abs (today - d)
    | None => maximum_cache_age cfg + 1
    end in
  e_data <~ path_exists (_path g ++ data_key) ;;
  e_error <~ path_exists (_path g ++ data_key ++ "_ERROR_GITHUB") ;;
  ret ((e_data || e_error)
       && negb (force_cache_update cfg)
       && (age <? maximum_cache_age cfg)%Z).

(** [self._cache_time[data_key] = datetime.date.today().toordinal()] *)
Definition stamp (data_key : string) : M unit :=
  g <~ get_self ;;
  set_cache_time (<[data_key := today]> (_cache_time g)).

(** The part of [_get_data] below its comment [# Update cache].
    [net] is what [requests.get] does when this call reaches it. *)
Definition _get_data_update (net : fetch_outcome) (data_key get_url : string) : M json :=
  g <~ get_self ;;
  let path := _path g in
  e_error <~ path_exists (path ++ data_key ++ "_ERROR_GITHUB") ;;
  (if e_error : bool
   then remove_file (path ++ data_key ++ "_ERROR_GITHUB")
   else ret tt) ;;;
  send {| req_url := get_url;
          req_auth :=
            if secret_available (_github_secret g)
            then Some (user (_github_secret g), secret (_github_secret g))
            else None |} ;;;
  match net with
  | ConnectionFailed => raise GithubError
  | Response status_code body =>
      if negb (status_code =? 200)%Z then
        data <~ lift (r_json body) ;;
        has_message <~ lift (py_in "message" data) ;;
        (if has_message : bool then
           message <~ lift (py_getitem data "message") ;;
           limited <~ lift (py_in "API rate limit exceeded" message) ;;
           if limited : bool then raise GithubError else ret tt
         else ret tt) ;;;
        write_file (path ++ data_key ++ "_ERROR_GITHUB") FEmpty ;;;
        stamp data_key ;;;
        _save_metadata ;;;
        raise GithubError
      else
        data <~ lift (r_json body) ;;
        try_except
          (write_file (path ++ data_key) (FData data) ;;;
           stamp data_key ;;;
           _save_metadata)
          (ret tt) ;;;
        ret data
  end.

Definition _get_data (net : fetch_outcome) (data_key get_url : string) : M json :=
  g <~ get_self ;;
  let path := _path g in
  valid <~ _test_cache_valid data_key ;;
  cached <~
    (if valid : bool then
       (* Test for cached error *)
       e_error <~ path_exists (path ++ data_key ++ "_ERROR_GITHUB") ;;
       if e_error : bool then raise GithubError
       else
         (* Load data; [None] when [open] or [json.load] raises *)
         f <~ read_file (path ++ data_key) ;;
         ret (f ≫= json_load)
     else ret None) ;;
  match cached with
  | Some data => ret data
  | None => _get_data_update net data_key get_url
  end.

Definition get_repository_data : fetch_outcome → M json :=
  λ net, g <~ get_self ;;
  _get_data net "repository_data"
    ("https://api.github.com/repos/" ++ _dev g ++ "/" ++ _repo g).

End Methods.
End GithubMethods.


(** ** Stale-lock recovery ([utility.check_stale_lock])

    The [lockfile] library is taken by its contract: [acquire(timeout)]
    returns once the lock is held and raises [LockTimeout] when another
    holder keeps it for the whole timeout, [release] raises [NotLocked]
    when the lock is not held by the caller, [break_lock] removes the
    lock whoever holds it.  What the other processes do is given by a list
    of answers, one for each call of [acquire] on a lock the caller does
    not hold; once the list is used up the lock is free. *)

Module Utility.

Inductive answer : Type :=
| Free        (* the lock is free, or freed before the timeout *)
| Busy        (* another holder keeps it for the whole timeout *)
| Broken.     (* the library fails in another way *)

Inductive lock_event : Type :=
| EvAcquire (path : string) (timeout : Q)
| EvRelease (path : string)
| EvBreakLock (path : string).

Record Locks : Type := {
  mine : gset string;          (* the locks this process holds *)
  answers : list answer;       (* what the next acquisitions meet *)
  randoms : list Q;            (* the next values of [random.random()] *)
  events : list lock_event     (* the calls made, in order *)
}.

Definition emit (e : lock_event) (w : Locks) : Locks :=
  {| mine := mine w; answers := answers w; randoms := randoms w;
     events := events w ++ [e] |}.

Definition i_am_locking (path : string) : prog Locks bool :=
  λ w, (Val (bool_decide (path ∈ mine w)), w).

Definition acquire (path : string) (timeout : Q) : prog Locks unit :=
  λ w0,
    let w := emit (EvAcquire path timeout) w0 in
    if bool_decide (path ∈ mine w) then (Val tt, w)
    else
      let held := {| mine := {[path]} ∪ mine w; answers := tail (answers w);
                     randoms := randoms w; events := events w |} in
      let missed := {| mine := mine w; answers := tail (answers w);
                       randoms := randoms w; events := events w |} in
      match answers w with
      | [] | Free :: _ => (Val tt, held)
      | Busy :: _ => (Raise LockTimeout, missed)
      | Broken :: _ => (Raise LockFailed, missed)
      end.

Definition release (path : string) : prog Locks unit :=
  λ w0,
    let w := emit (EvRelease path) w0 in
    if bool_decide (path ∈ mine w)
    then (Val tt, {| mine := mine w ∖ {[path]}; answers := answers w;
                     randoms := randoms w; events := events w |})
    else (Raise NotLocked, w).

Definition break_lock (path : string) : prog Locks unit :=
  λ w0,
    let w := emit (EvBreakLock path) w0 in
    (Val tt, {| mine := mine w ∖ {[path]}; answers := answers w;
                randoms := randoms w; events := events w |}).

(** [random.random()]: the next value of the list, 0 when it is used up. *)
Definition random : prog Locks Q :=
  λ w, (Val (hd 0%Q (randoms w)),
        {| mine := mine w; answers := answers w; randoms := tail (randoms w);
           events := events w |}).

Section CheckStaleLock.

Variable cfg : Config.
(** [multiprocessing.cpu_count()] *)
Variable cpu_count : Z.

Local Open Scope py_scope.

Definition workers : Z :=
  if (0 <? number_worker cfg)%Z then number_worker cfg else cpu_count.

(** One round of the loop [while not test_lock.i_am_locking()]. *)
Definition take_gate_once (test_lock : string) (time : Q) (worker : Z)
  : prog Locks unit :=
  try_except
    (catch
       (r <~ random ;;
        acquire test_lock (time + time / 5 * inject_Z worker + (time / 2) * r)%Q)
       (λ e, match e with
             | LockTimeout => break_lock test_lock
             | _ => raise e
             end))
    (ret tt).

(** The loop, on [fuel] rounds at most; [None] when they do not suffice. *)
Fixpoint take_gate (fuel : nat) (test_lock : string) (time : Q) (worker : Z)
    (w : Locks) : option Locks :=
  if bool_decide (test_lock ∈ mine w) then Some w
  else
    match fuel with
    | O => None
    | S fuel' =>
        take_gate fuel' test_lock time worker
          (snd (take_gate_once test_lock time worker w))
    end.

(** What follows the loop: the probe of [lock_path] under the gate. *)
Definition probe (lock_path test_lock : string) (time : Q) : prog Locks unit :=
  catch
    (acquire lock_path time ;;;
     release lock_path)
    (λ e, match e with
          | LockTimeout =>
              catch (break_lock lock_path)
                (λ e', match e' with NotLocked => ret tt | _ => raise e' end)
          | _ => raise e
          end) ;;;
  catch (release test_lock)
    (λ e, match e with NotLocked => ret tt | _ => raise e end).

Definition check_stale_lock (fuel : nat) (lock_path : string) (time : Q)
    (w : Locks) : option (outcome unit * Locks) :=
  let worker := workers in
  let lock := lock_path in
  let test_lock := lock_path ++ "_STALE" in
  w' ← take_gate fuel test_lock time worker w;
  Some (probe lock test_lock time w').

End CheckStaleLock.

(** [time=20], the default of the parameter. *)
Definition default_time : Q := 20.

End Utility.

(** ** The batch scheduler ([processor.batch] and [processor._batch_worker])

    The submitting process and its workers are separate processes that
    share two queues.  Their interleaving is given from outside, as a
    schedule: a list of actions, each one step of a worker or of the
    submitting process.  A queue's [get(True, 1)] raises [queue.Empty]
    when the queue is empty, and a worker can die at any point, with a
    non-zero exit status, losing the item it holds. *)

Module Processor.

Inductive log_entry : Type :=
| LogFailed (n : nat)               (* '{} processes have failed - ...' *)
| LogMissing (expected got : nat).  (* 'Expected {} results, got {} - ...' *)

Section Batch.

(** The work items, the results, and what the body of the loop of
    [_batch_worker] computes from one item. *)
Variables item result : Type.
Variable classify_item : item → result.

Variable cfg : Config.
(** [multiprocessing.cpu_count()] *)
Variable cpu_count : Z.

Inductive process : Type :=
| Idle                      (* at [queue_input.get(True, 1)] *)
| Working (data : item)     (* between [get] and [queue_output.put] *)
| Exited (exitcode : Z).

(** Where the submitting process is in [batch]. *)
Inductive phase : Type :=
| Polling      (* in [while alive:] *)
| FinalDrain   (* joined; in the last [try: while True:] *)
| Returned.

Record sched : Type := {
  input : list item;          (* the parameter of [batch] *)
  queue_input : list item;
  queue_output : list result;
  processes : list process;
  results : list result;      (* the variable [result] *)
  at_phase : phase;
  log : list log_entry
}.

(** One step of a worker, in [_batch_worker]. *)
Inductive worker_action : Type :=
| Get                    (* [data = queue_input.get(True, 1)] returns *)
| SeesEmpty              (* it raises: [except queue.Empty: sys.exit(0)] *)
| Put                    (* the item is classified: [queue_output.put(...)] *)
| Dies (exitcode : Z).   (* an exception or a signal ends the process *)

Inductive action : Type :=
| Worker (i : nat) (a : worker_action)
| Drain        (* [result += [queue_output.get(True, 1)]] *)
| AllDead      (* no process [is_alive()]: leave [while alive:], join *)
| Finish.      (* the last [queue.Empty]: reconcile and return *)

Definition is_alive (p : process) : bool :=
  match p with
  | Exited _ => false
  | _ => true
  end.

(** [not process.exitcode == 0] *)
Definition has_failed (p : process) : bool :=
  match p with
  | Exited exitcode => negb (exitcode =? 0)%Z
  | _ => false
  end.

Definition set_process (i : nat) (p : process) (s : sched) : sched :=
  {| input := input s; queue_input := queue_input s; queue_output := queue_output s;
     processes := <[i := p]> (processes s); results := results s;
     at_phase := at_phase s; log := log s |}.

(** The process [i], running [_batch_worker(queue_input, queue_output)]. *)
Definition _batch_worker (i : nat) (a : worker_action) (s : sched) : option sched :=
  match a with
  | Get =>
      match processes s !! i, queue_input s with
      | Some Idle, data :: rest =>
          Some {| input := input s; queue_input := rest; queue_output := queue_output s;
                  processes := <[i := Working data]> (processes s);
                  results := results s; at_phase := at_phase s; log := log s |}
      | _, _ => None
      end
  | SeesEmpty =>
      match processes s !! i, queue_input s with
      | Some Idle, [] => Some (set_process i (Exited 0) s)
      | _, _ => None
      end
  | Put =>
      match processes s !! i with
      | Some (Working data) =>
          Some {| input := input s; queue_input := queue_input s;
                  queue_output := (queue_output s ++ [classify_item data])%list;
                  processes := <[i := Idle]> (processes s);
                  results := results s; at_phase := at_phase s; log := log s |}
      | _ => None
      end
  | Dies exitcode =>
      match processes s !! i with
      | Some p =>
          if is_alive p && negb (exitcode =? 0)%Z
          then Some (set_process i (Exited exitcode) s)
          else None
      | None => None
      end
  end.

(** One step of the system: of a worker, or of the submitting process in
    [batch]. *)
Definition step (a : action) (s : sched) : option sched :=
  match a with
  | Worker i a => _batch_worker i a s
  | Drain =>
      match at_phase s, queue_output s with
      | (Polling | FinalDrain), r :: rest =>
          Some {| input := input s; queue_input := queue_input s; queue_output := rest;
                  processes := processes s;
                  results := (results s ++ [r])%list;
                  at_phase := at_phase s; log := log s |}
      | _, _ => None
      end
  | AllDead =>
      match at_phase s with
      | Polling =>
          if forallb (λ p, negb (is_alive p)) (processes s) then
            let failed := filter (λ p, has_failed p = true) (processes s) in
            Some {| input := input s; queue_input := queue_input s; queue_output := queue_output s;
                    processes := processes s; results := results s;
                    at_phase := FinalDrain;
                    log := if (0 <? length failed)%nat
                           then (log s ++ [LogFailed (length failed)])%list
                           else log s |}
          else None
      | _ => None
      end
  | Finish =>
      match at_phase s, queue_output s with
      | FinalDrain, [] =>
          Some {| input := input s; queue_input := queue_input s;
                  queue_output := queue_output s;
                  processes := processes s; results := results s;
                  at_phase := Returned;
                  log := if negb (length (results s) =? length (input s))%nat
                         then (log s ++ [LogMissing (length (input s))
                                                    (length (results s))])%list
                         else log s |}
      | _, _ => None
      end
  end.

(** A schedule, run from a state; [None] when an action of the
    schedule is not possible where it stands. *)
Fixpoint run (schedule : list action) (s : sched) : option sched :=
  match schedule with
  | [] => Some s
  | a :: schedule' =>
      match step a s with
      | Some s' => run schedule' s'
      | None => None
      end
  end.

Definition worker : Z :=
  if (0 <? number_worker cfg)%Z then number_worker cfg else cpu_count.

(** The state once the queues are filled and the processes started. *)
Definition start (input : list item) : sched :=
  {| input := input;
     queue_input := input;
     queue_output := [];
     processes := replicate (Z.to_nat worker) Idle;
     results := [];
     at_phase := Polling;
     log := [] |}.

(** [batch(input)] under a schedule: the list returned and the final
    state of queues and processes, when there are any.  [None] when
    the schedule does not take [batch] to its [return]. *)
Definition batch (input : list item) (schedule : list action)
  : option (list result * option sched) :=
  if (length input =? 0)%nat then Some ([], None)
  else
    match run schedule (start input) with
    | Some s =>
        match at_phase s with
        | Returned => Some (results s, Some s)
        | _ => None
        end
    | None => None
    end.

End Batch.

Arguments Idle {item}.
Arguments Working {item} data.
Arguments Exited {item} exitcode.
Arguments input {item result} s.
Arguments queue_input {item result} s.
Arguments queue_output {item result} s.
Arguments processes {item result} s.
Arguments results {item result} s.
Arguments at_phase {item result} s.
Arguments log {item result} s.
Arguments is_alive {item} p.
Arguments has_failed {item} p.
Arguments set_process {item result} i p s.
Arguments _batch_worker {item result} classify_item i a s.
Arguments step {item result} classify_item a s.
Arguments run {item result} classify_item schedule s.
Arguments start {item result} cfg cpu_count input.
Arguments batch {item result} classify_item cfg cpu_count input schedule.

Abbreviation WorkerGet i := (Worker i Get).
Abbreviation WorkerEmpty i := (Worker i SeesEmpty).
Abbreviation WorkerPut i := (Worker i Put).
Abbreviation WorkerDie i exitcode := (Worker i (Dies exitcode)).

End Processor.

(** ** Classes and the best class ([utility.get_classes],
    [utility.get_zero_class_dict], [utility.get_best_class])

    A dict of class probabilities is the list of its items in iteration
    order, which for a Python dict is the order of insertion.  Numbers
    are compared by value; they are rationals here. *)

Module UtilityClasses.

Definition get_classes : list string :=
  ["DEV"; "HW"; "EDU"; "DOCS"; "WEB"; "DATA"; "OTHER"].

Definition get_zero_class_dict : list (string * Q) :=
  [("DEV", 0%Q); ("HW", 0%Q); ("EDU", 0%Q); ("DOCS", 0%Q);
   ("WEB", 0%Q); ("DATA", 0%Q); ("OTHER", 0%Q)].

(** The loop [for result_class in dict.keys():] of [get_best_class], with
    the variables [best] and [best_class]. *)
Fixpoint get_best_class_loop (items : list (string * Q)) (best : Q)
    (best_class : string) : string :=
  match items with
  | [] => best_class
  | (result_class, value) :: rest =>
      if negb (Qle_bool value best)                 (* dict[result_class] > best *)
      then get_best_class_loop rest value result_class
      else get_best_class_loop rest best best_class
  end.

Definition get_best_class (dict : list (string * Q)) : string :=
  get_best_class_loop dict (-1)%Q "".

End UtilityClasses.

(** ** The edit distance ([utility.edit_distance])

    A string is the list of its code points.  The matrix is a list of
    rows, read and written by index as the code does; every index the
    code uses is in range.  [source[j - 1] is target[i - 1]] compares
    two one-character strings by identity: indexing a string gives, for
    a code point below 256, the one string object there is for it, and
    for any other code point a new object each time. *)

From Stdlib Require Import Ascii.

Module EditDistance.

Abbreviation text := (list N).

(** A string of characters below 256, as a [text]. *)
Definition of_string (s : string) : text :=
  map N_of_ascii (list_ascii_of_string s).

(** [x is y] for the one-character strings [x] and [y] got by indexing,
    of the code points [c] and [d]. *)
Definition same_object (c d : N) : bool := (c =? d)%N && (c <? 256)%N.

(** [matrix[i][j]] *)
Definition cell (matrix : list (list Z)) (i j : nat) : Z :=
  default 0 (matrix !! i ≫= (λ row, row !! j)).

(** [matrix[i][j] = v] *)
Definition set_cell (matrix : list (list Z)) (i j : nat) (v : Z) : list (list Z) :=
  alter (λ row, <[j := v]> row) i matrix.

(** [0 if source[j - 1] is target[i - 1] else cost_sub] *)
Definition substitution (target source : text) (cost_sub : Z) (i j : nat) : Z :=
  match source !! (j - 1)%nat, target !! (i - 1)%nat with
  | Some c, Some d => if same_object c d then 0 else cost_sub
  | _, _ => cost_sub
  end.

Definition edit_distance (target source : text)
    (cost_ins cost_del cost_sub : Z) : Z :=
  let n := length target in
  let m := length source in
  let matrix := replicate (n + 1) (replicate (m + 1) 0) in
  let matrix :=
    fold_left
      (λ matrix i, set_cell matrix i 0 (cell matrix (i - 1) 0 + cost_ins))
      (seq 1 n) matrix in
  let matrix :=
    fold_left
      (λ matrix j, set_cell matrix 0 j (cell matrix 0 (j - 1) + cost_del))
      (seq 1 m) matrix in
  let matrix :=
    fold_left
      (λ matrix i,
         fold_left
           (λ matrix j,
              set_cell matrix i j
                (Z.min
                   (Z.min (cell matrix (i - 1) j + cost_ins)
                          (cell matrix (i - 1) (j - 1)
                           + substitution target source cost_sub i j))
                   (cell matrix i (j - 1) + cost_del)))
           (seq 1 m) matrix)
      (seq 1 n) matrix in
  cell matrix n m.

End EditDistance.

(** ** URLs ([utility._URL_RE], [utility.validate_url],
    [utility.get_dev_and_repo])

    The pattern is kept as a term and run by a backtracking matcher that
    tries what Python's [re] tries, in its order: a greedy [*] and [?]
    take the longest match first and give back on failure.  Characters
    are the code points below 256. *)

From Stdlib Require Import Ascii.

Module Url.

Inductive regex : Type :=
| Eps
| Lit (c : ascii)
| AnyChar                           (* [.]: any character but a newline *)
| Seq (r1 r2 : regex)
| Opt (r : regex)                   (* [r?] *)
| StarClass (p : ascii → bool)      (* [[...]*] *)
| Named (name : string) (r : regex) (* [(?P<name>r)] *)
| NotAhead (r : regex)              (* [(?!r)] *)
| Bol                               (* [^] *)
| Eol.                              (* [$] *)

Definition newline : ascii := "010"%char.

(** [[...]*] on [rest]: the longest run first, then shorter ones. *)
Fixpoint star {A} (p : ascii → bool) (rest : string) (k : string → option A)
  : option A :=
  match rest with
  | String c rest' =>
      if p c then
        match star p rest' k with
        | Some a => Some a
        | None => k rest
        end
      else k rest
  | EmptyString => k rest
  end.

(** What a group has matched: [rest] up to where [rest'] begins. *)
Definition consumed (rest rest' : string) : string :=
  String.substring 0 (String.length rest - String.length rest') rest.

(** The matcher, on the string [whole]: [r] is matched at the beginning
    of [rest], and [k] goes on with what is left and the groups so far. *)
Fixpoint run (whole : string) (r : regex) (rest : string)
    (groups : gmap string string)
    (k : string → gmap string string → option (gmap string string))
  : option (gmap string string) :=
  match r with
  | Eps => k rest groups
  | Lit c =>
      match rest with
      | String d rest' => if Ascii.eqb c d then k rest' groups else None
      | EmptyString => None
      end
  | AnyChar =>
      match rest with
      | String d rest' => if Ascii.eqb d newline then None else k rest' groups
      | EmptyString => None
      end
  | Seq r1 r2 =>
      run whole r1 rest groups (λ rest' groups', run whole r2 rest' groups' k)
  | Opt r' =>
      match run whole r' rest groups k with
      | Some g => Some g
      | None => k rest groups
      end
  | StarClass p => star p rest (λ rest', k rest' groups)
  | Named name r' =>
      run whole r' rest groups
        (λ rest' groups', k rest' (<[name := consumed rest rest']> groups'))
  | NotAhead r' =>
      match run whole r' rest groups (λ _ g, Some g) with
      | Some _ => None
      | None => k rest groups
      end
  | Bol =>
      if (String.length rest =? String.length whole)%nat then k rest groups else None
  | Eol =>
      match rest with
      | EmptyString => k rest groups
      | String c EmptyString => if Ascii.eqb c newline then k rest groups else None
      | _ => None
      end
  end.

(** [pattern.match(s)]: the groups of the match, if there is one. *)
Definition re_match (pattern : regex) (s : string) : option (gmap string string) :=
  run s pattern s ∅ (λ _ groups, Some groups).

(** [match.group(name)] for a group that took part in the match. *)
Definition group (m : gmap string string) (name : string) : string :=
  default "" (m !! name).

Fixpoint literal (s : string) : regex :=
  match s with
  | EmptyString => Eps
  | String c s' => Seq (Lit c) (literal s')
  end.

(** [[a-zA-Z0-9\-_\.]] *)
Definition name_char (c : ascii) : bool :=
  let n := nat_of_ascii c in
  ((97 <=? n) && (n <=? 122))%nat        (* a-z *)
  || ((65 <=? n) && (n <=? 90))%nat      (* A-Z *)
  || ((48 <=? n) && (n <=? 57))%nat      (* 0-9 *)
  || Ascii.eqb c "-" || Ascii.eqb c "_" || Ascii.eqb c ".".

Declare Scope re_scope.
Delimit Scope re_scope with re.
Infix "·" := Seq (at level 41, right associativity) : re_scope.

(** The pattern of [_URL_RE], piece by piece: the beginning of the
    string; [http], [s] and [://], the first optional and the second
    optional within it; [www] and any character, optional; [github], any
    character, [com/]; the group [dev], any number of characters of the
    class; [/]; the group [repo], likewise; not followed by [.git]; an
    optional [/]; the end of the string. *)
Definition _URL_RE : regex :=
  (Bol
   · Opt (literal "http" · Opt (Lit "s") · literal "://")
   · Opt (literal "www" · AnyChar)
   · literal "github" · AnyChar · literal "com/"
   · Named "dev" (StarClass name_char)
   · Lit "/"
   · Named "repo" (StarClass name_char)
   · NotAhead (literal ".git")
   · Opt (Lit "/")
   · Eol)%re.

(** [str.isspace()] of one character below 256. *)
Definition isspace (c : ascii) : bool :=
  let n := nat_of_ascii c in
  ((9 <=? n) && (n <=? 13))%nat || ((28 <=? n) && (n <=? 32))%nat
  || (n =? 133)%nat || (n =? 160)%nat.

Fixpoint lstrip (s : string) : string :=
  match s with
  | String c s' => if isspace c then lstrip s' else s
  | EmptyString => EmptyString
  end.

Fixpoint rstrip (s : string) : string :=
  match s with
  | String c s' =>
      match rstrip s' with
      | EmptyString => if isspace c then EmptyString else String c EmptyString
      | t => String c t
      end
  | EmptyString => EmptyString
  end.

(** [s.strip()] *)
Definition strip (s : string) : string := rstrip (lstrip s).

Definition validate_url (url : string) : bool :=
  let url := strip url in
  bool_decide (is_Some (re_match _URL_RE url)).

Definition get_dev_and_repo (url : string) : string * string :=
  let url := strip url in
  match re_match _URL_RE url with
  | None => ("", "")
  | Some m => (group m "dev", group m "repo")
  end.

End Url.

(** [Github.get_repo_url] *)
Definition get_repo_url (g : Github) : string :=
  "https://github.com/" ++ _dev g ++ "/" ++ _repo g.

(** ** The queries of [Github]

    [repository_exists], [get_repository_content], [get_tree],
    [get_readme], [get_file], [get_languages], [get_commits] and
    [get_dev_repo], on top of [_get_data].  Each takes what
    [requests.get] does for each call of [_get_data] it makes. *)

(** [s.replace(old, new)] for an [old] of one character. *)
Fixpoint replace (old : ascii) (new : string) (s : string) : string :=
  match s with
  | String c s' =>
      if Ascii.eqb c old then new ++ replace old new s'
      else String c (replace old new s')
  | EmptyString => EmptyString
  end.

(** What [get_readme] and [get_file] return: a [str], the [bytes] of
    [base64.b64decode], or [None] where the function ends without a
    [return]. *)
Inductive content : Type :=
| Str (s : string)
| Bytes (b : string)
| PyNone.

(** The cache keys of [get_repository_content] and [get_tree]. *)
Definition content_key (path : string) : string :=
  replace "/" "__dir__" ("repository_content_" ++ path).

Definition tree_key (branch : string) : string :=
  replace "/" "_SLASH_" ("tree_" ++ branch).

Module Import GithubQueries.
Section Queries.

Variable cfg : Config.
Variable today : Z.
(** [base64.b64decode] of a string. *)
Variable b64decode : string → outcome string.

Local Open Scope py_scope.

(** ['message' in data and data['message'] == 'Not Found'] *)
Definition says_not_found (data : json) : M bool :=
  has_message <~ lift (py_in "message" data) ;;
  if has_message : bool then
    message <~ lift (py_getitem data "message") ;;
    ret (json_is_str "Not Found" message)
  else ret false.

Definition repository_exists (net : fetch_outcome) : M bool :=
  catch
    (data <~ get_repository_data cfg today net ;;
     not_found <~ says_not_found data ;;
     ret (negb not_found))
    (λ e, match e with
          | GithubError | GithubConnectionError => ret false
          | _ => raise e
          end).

Definition get_repository_content (net : fetch_outcome) (path : string) : M json :=
  g <~ get_self ;;
  _get_data cfg today net (content_key path)
    ("https://api.github.com/repos/" ++ _dev g ++ "/" ++ _repo g ++ "/contents/" ++ path).

(** [get_tree(branch)]; [net_data] is for the call of
    [get_repository_data] that an empty [branch] leads to.  A default
    branch that is no string ends in the [TypeError] of ['tree_' + branch]. *)
Definition get_tree (net_data net : fetch_outcome) (branch : string) : M json :=
  g <~ get_self ;;
  branch <~
    (if String.eqb branch "" then
       data <~ get_repository_data cfg today net_data ;;
       default_branch <~ lift (py_getitem data "default_branch") ;;
       match default_branch with
       | JStr b => ret b
       | _ => raise TypeError
       end
     else ret branch) ;;
  _get_data cfg today net (tree_key branch)
    ("https://api.github.com/repos/" ++ _dev g ++ "/" ++ _repo g
     ++ "/git/trees/" ++ branch ++ "?recursive=1").

(** The end of [get_readme] and of [get_file], from [content = data['content']] on. *)
Definition decoded (data : json) : M content :=
  content <~ lift (py_getitem data "content") ;;
  encoding <~ lift (py_getitem data "encoding") ;;
  if json_is_str "base64" encoding then
    match content with
    | JStr c => b <~ lift (b64decode c) ;; ret (Bytes b)
    | _ => raise TypeError
    end
  else ret PyNone.

Definition get_readme (net : fetch_outcome) : M content :=
  g <~ get_self ;;
  data <~ _get_data cfg today net "readme"
            ("https://api.github.com/repos/" ++ _dev g ++ "/" ++ _repo g ++ "/readme") ;;
  not_found <~ says_not_found data ;;
  if not_found : bool then ret (Str "") else decoded data.

Definition get_file (net : fetch_outcome) (file : string) : M content :=
  data <~ get_repository_content net file ;;
  match data with
  | JList _ => ret (Str "")
  | _ =>
      not_found <~ says_not_found data ;;
      if not_found : bool then ret (Str "")
      else
        type <~ lift (py_getitem data "type") ;;
        if negb (json_is_str "file" type) then ret (Str "") else decoded data
  end.

Definition get_languages (net : fetch_outcome) : M json :=
  g <~ get_self ;;
  _get_data cfg today net "languages"
    ("https://api.github.com/repos/" ++ _dev g ++ "/" ++ _repo g ++ "/languages").

Definition get_commits (net : fetch_outcome) : M json :=
  g <~ get_self ;;
  _get_data cfg today net "commits"
    ("https://api.github.com/repos/" ++ _dev g ++ "/" ++ _repo g ++ "/commits").

Definition get_dev_repo : M (string * string) :=
  g <~ get_self ;;
  ret (_dev g, _repo g).

End Queries.
End GithubQueries.

(** ** Validation ([run_validate.py])

    [calculate_precision], [calculate_recall] and, of [main], the
    assignment of the data to the folds and the sets of each run.  An
    entry is a repository with a class; the entries of a result of
    [processor.batch] are read through their first two components
    alone.  The quotient of the two counters, a float in the source, is
    kept exact. *)

Module Validate.
Local Open Scope list_scope.

Definition entry : Type := Github * string.

(** The inner loop of [calculate_precision], for one entry [data] of
    the results: the first entry of the truth for the repository of
    [data] decides whether [tp] is counted up, and the loop ends there. *)
Fixpoint truth_agrees (truth : list entry) (data : entry) (target_class : string) : bool :=
  match truth with
  | t :: rest =>
      if Github_eq (fst t) (fst data) then String.eqb (snd t) target_class
      else truth_agrees rest data target_class
  | [] => false
  end.

Definition calculate_precision (truth results : list entry) (target_class : string) : Q :=
  let '(count, tp) :=
    fold_left
      (λ '(count, tp) data,
         if String.eqb (snd data) target_class then
           (S count, if truth_agrees truth data target_class then S tp else tp)
         else (count, tp))
      results (0%nat, 0%nat) in
  if negb (count =? 0)%nat then (inject_Z (Z.of_nat tp) / inject_Z (Z.of_nat count))%Q
  else 0%Q.

(** The inner loop of [calculate_recall], for one entry [data] of the
    truth: the first entry of the results for its repository decides. *)
Fixpoint results_agree (results : list entry) (data : entry) (target_class : string) : bool :=
  match results with
  | r :: rest =>
      if Github_eq (fst r) (fst data) then String.eqb (snd r) target_class
      else results_agree rest data target_class
  | [] => false
  end.

Definition calculate_recall (truth results : list entry) (target_class : string) : Q :=
  let '(count, tp) :=
    fold_left
      (λ '(count, tp) data,
         if String.eqb (snd data) target_class then
           (S count, if results_agree results data target_class then S tp else tp)
         else (count, tp))
      truth (0%nat, 0%nat) in
  if negb (count =? 0)%nat then (inject_Z (Z.of_nat tp) / inject_Z (Z.of_nat count))%Q
  else 0%Q.

(** [datasets = [[] for i in range(k_fold)]] and the loop
    [datasets[random.randint(0, k_fold - 1)] += [d]]; [randint n] is
    what the [n]-th call of [random.randint] returns. *)
Fixpoint assign {A} (randint : nat → nat) (n : nat) (data : list A)
    (datasets : list (list A)) : list (list A) :=
  match data with
  | d :: rest =>
      assign randint (S n) rest (alter (λ fold, fold ++ [d]) (randint n) datasets)
  | [] => datasets
  end.

Definition folds {A} (k_fold : nat) (randint : nat → nat) (data : list A) : list (list A) :=
  assign randint 0 data (replicate k_fold []).

(** The sets of one run: [learn] and [truth] after the loop over
    [range(k_fold)]. *)
Definition run_sets {A} (k_fold run : nat) (datasets : list (list A)) : list A * list A :=
  fold_left
    (λ '(learn, truth) i,
       if (i =? run)%nat then (learn, default [] (datasets !! i))
       else (learn ++ default [] (datasets !! i), truth))
    (seq 0 k_fold) ([], []).

End Validate.

(** ** Reading the input ([processor.file_to_input],
    [processor.dir_to_learning])

    What is at a path is a directory or a text file.  A text file is
    the list of its lines as [for line in file] yields them, each with
    its line end, and whether the iteration comes to its end or raises
    after the last of them (a read error, a line that cannot be
    decoded).  The cache directory [Github.__init__] creates for each
    object is not among the paths read here. *)

Module ProcessorInput.
Import Url UtilityClasses.
Local Open Scope list_scope.

Inductive node : Type :=
| Directory
| TextFile (lines : list string) (intact : bool).

Section Input.

Variable cfg : Config.
(** What [GithubSecret()] reads, in [Github.__init__]. *)
Variable secret : GithubSecret.
Variable disk : gmap string node.

(** [os.path.exists] and [os.path.isdir] *)
Definition exists_path (path : string) : bool := bool_decide (is_Some (disk !! path)).

Definition isdir (path : string) : bool :=
  match disk !! path with
  | Some Directory => true
  | _ => false
  end.

(** The body of [for line in file:], on the list [data]. *)
Definition read_line (data : list Github) (line : string) : list Github :=
  let line := strip line in
  if String.eqb line "" then data
  else if negb (validate_url line) then data
  else
    let url_data := get_dev_and_repo line in
    data ++ [Github_init cfg secret (fst url_data) (snd url_data)].

(** [except:] keeps what the loop has collected when [open] or the
    iteration raises. *)
Definition file_to_input (path : string) : list Github :=
  if negb (exists_path path) then []
  else
    match disk !! path with
    | Some (TextFile lines _) => fold_left read_line lines []
    | _ => []
    end.

Definition dir_to_learning (path : string) : list (Github * string) :=
  if negb (isdir path) then []
  else
    let classes := get_classes in
    if existsb (λ file, negb (exists_path (path +:+ "/" +:+ file))) classes then []
    else
      fold_left
        (λ input file,
           let dataset := file_to_input (path +:+ "/" +:+ file) in
           fold_left (λ input data, input ++ [(data, file)]) dataset input)
        classes [].

End Input.
End ProcessorInput.

(** ** Auxiliary definitions

    Names for what the properties below talk about: the states the cache
    passes through, the classes of answers of the remote, the calls of
    the gate loop, the invariant of the scheduler, and concrete data for
    the examples. *)

(** The journal as the object holds it once [_read_metadata] has run:
    the METADATA file when there is one, the object's own copy otherwise. *)
Definition journal (s : State) : gmap string Z :=
  _cache_time (self (snd (_read_metadata s))).

(** The state [_read_metadata] leaves. *)
Definition refreshed (s : State) : State := snd (_read_metadata s).

(** The age [_test_cache_valid] computes for a key. *)
Definition age (cfg : Config) (today : Z) (s : State) (data_key : string) : Z :=
  match journal s !! data_key with
  | Some d => Z.abs (today - d)
  | None => maximum_cache_age cfg + 1
  end.

Definition exists_data (s : State) (k : string) : bool :=
  bool_decide (is_Some (fs s !! (_path (self s) ++ k))).

Definition exists_marker (s : State) (k : string) : bool :=
  bool_decide (is_Some (fs s !! (_path (self s) ++ k ++ "_ERROR_GITHUB"))).

Definition valid_now (cfg : Config) (today : Z) (s : State) (k : string) : bool :=
  (exists_data s k || exists_marker s k)
  && negb (force_cache_update cfg)
  && (age cfg today s k <? maximum_cache_age cfg)%Z.

(** How [_get_data] tells the fetch outcomes apart. *)
Inductive fetch_class : Type :=
| Success (data : json)
| DefinitiveError
| RateLimited
| ConnectionFailure
| Undecodable (e : exn).

Definition classify (net : fetch_outcome) : fetch_class :=
  match net with
  | ConnectionFailed => ConnectionFailure
  | Response status_code body =>
      match r_json body with
      | Raise e => Undecodable e
      | Val data =>
          if (status_code =? 200)%Z then Success data
          else
            match py_in "message" data with
            | Raise e => Undecodable e
            | Val false => DefinitiveError
            | Val true =>
                match py_getitem data "message" with
                | Raise e => Undecodable e
                | Val message =>
                    match py_in "API rate limit exceeded" message with
                    | Raise e => Undecodable e
                    | Val true => RateLimited
                    | Val false => DefinitiveError
                    end
                end
            end
      end
  end.

Definition the_request (g : Github) (get_url : string) : request :=
  {| req_url := get_url;
     req_auth :=
       if secret_available (_github_secret g)
       then Some (user (_github_secret g), secret (_github_secret g))
       else None |}.

(** The state once the request has gone out: a marker there was is gone. *)
Definition asked (k get_url : string) (s : State) : State :=
  {| self := self s;
     fs := delete (_path (self s) ++ k ++ "_ERROR_GITHUB") (fs s);
     requests := the_request (self s) get_url :: requests s |}.

(** The state once file [p] holds [f] and the journal is stamped and saved. *)
Definition recorded (today : Z) (k p : string) (f : file) (s : State) : State :=
  let m := <[k := today]> (_cache_time (self s)) in
  {| self := with_cache_time (self s) m;
     fs := <[_path (self s) ++ "METADATA" := FData (journal_to_json m)]>
             (<[p := f]> (fs s));
     requests := requests s |}.

(** What [_get_data] answers from the cache alone; [None] when it goes on
    to the remote. *)
Definition served (cfg : Config) (today : Z) (s : State) (k : string)
  : option (outcome json) :=
  if valid_now cfg today s k then
    if exists_marker s k then Some (Raise GithubError)
    else Val <$> (fs s !! (_path (self s) ++ k) ≫= json_load)
  else None.

(** Concrete data for the examples: the repository of the test suite, an
    empty cache directory, and three answers of the remote. *)
Definition anonymous : GithubSecret :=
  {| secret_available := false; secret := ""; user := "" |}.

Definition kana : Github :=
  Github_init default_config anonymous "Top-Ranger" "kana-keyboard".

Definition empty_cache : State := {| self := kana; fs := ∅; requests := [] |}.

Definition kana_url : string := "https://api.github.com/repos/Top-Ranger/kana-keyboard".

Definition ok_response : fetch_outcome :=
  Response 200 (Some (JDict {[ "name" := JStr "kana-keyboard" ]})).

Definition other_response : fetch_outcome :=
  Response 200 (Some (JDict {[ "name" := JStr "renamed" ]})).

Definition not_found_response : fetch_outcome :=
  Response 404 (Some (JDict {[ "message" := JStr "Not Found" ]})).

Definition rate_limit_response : fetch_outcome :=
  Response 403 (Some (JDict {[ "message" :=
    JStr "API rate limit exceeded for 203.0.113.7. (But here's the good news: ...)" ]})).

(** The configuration of the test suite: about 1000 years. *)
Definition test_config : Config :=
  {| cache_path := "./tests/cache";
     maximum_cache_age := 366000;
     force_cache_update := false;
     number_worker := 0 |}.

Definition forcing_config : Config :=
  {| cache_path := "./cache";
     maximum_cache_age := 7;
     force_cache_update := true;
     number_worker := 0 |}.

Definition no_cache_config : Config :=
  {| cache_path := "./cache";
     maximum_cache_age := 0;
     force_cache_update := false;
     number_worker := 0 |}.

(** Two calls of [_get_data] in immediate succession: same day, same key
    and url, nothing in between. *)
Definition get_twice (cfg : Config) (today : Z) (net1 net2 : fetch_outcome)
    (k url : string) (s : State) : (outcome json * State) * (outcome json * State) :=
  let first := _get_data cfg today net1 k url s in
  (first, _get_data cfg today net2 k url (snd first)).

Module UtilitySpec.
Import Utility.

(** The timeout the gate is asked for, for a jitter [r]. *)
Definition gate_timeout (time : Q) (worker : Z) (r : Q) : Q :=
  (time + time / 5 * inject_Z worker + (time / 2) * r)%Q.

(** The calls the gate loop makes: acquisitions of the gate with the
    long timeout, for a jitter in [0, 1), and breaks of the gate. *)
Definition gate_attempt (test_lock : string) (time : Q) (worker : Z)
    (e : lock_event) : Prop :=
  e = EvBreakLock test_lock
  ∨ ∃ r, (0 <= r)%Q ∧ (r < 1)%Q ∧ e = EvAcquire test_lock (gate_timeout time worker r).

Definition jitter_ok (r : Q) : Prop := (0 <= r)%Q ∧ (r < 1)%Q.

(** A lock "p" left behind by a dead process, a free gate, four
    workers, a jitter of one half. *)
Definition abandoned : Locks :=
  {| mine := ∅; answers := [Free; Busy]; randoms := [(1 # 2)%Q]; events := [] |}.

End UtilitySpec.

Module ProcessorSpec.
Import Processor.
Local Open Scope nat_scope.

Section Batch.

Variables item result : Type.

Abbreviation process := (process item).
Abbreviation sched := (sched item result).

(** The items a worker holds between its [get] and its [put]. *)
Definition holding (p : process) : nat :=
  match p with
  | Working _ => 1
  | _ => 0
  end.

(** Every item submitted is in one of four places, unless a worker
    died with it. *)
Definition accounted (s : sched) : nat :=
  length (queue_input s) + sum_list_with holding (processes s)
  + length (queue_output s) + length (results s).

Definition no_failure (ps : list process) : Prop :=
  Forall (λ p, has_failed p = false) ps.

Definition all_dead (ps : list process) : Prop :=
  Forall (λ p, is_alive p = false) ps.

Definition failures (ps : list process) : nat :=
  length (filter (λ p, has_failed p = true) ps).

Record inv (s : sched) : Prop := {
  inv_le : accounted s ≤ length (input s);
  inv_eq : no_failure (processes s) → accounted s = length (input s);
  inv_clean_exit : Exited 0 ∈ processes s → queue_input s = [];
  inv_joined : at_phase s ≠ Polling → all_dead (processes s);
  inv_returned : at_phase s = Returned → queue_output s = [];
  inv_log_failed :
    at_phase s ≠ Polling →
    0 < failures (processes s) →
    LogFailed (failures (processes s)) ∈ log s;
  inv_log_missing :
    at_phase s = Returned →
    length (results s) ≠ length (input s) →
    LogMissing (length (input s)) (length (results s)) ∈ log s
}.

Definition weight (p : process) : nat :=
  match p with
  | Idle => 1
  | Working _ => 4
  | Exited _ => 0
  end.

Definition phase_weight (ph : phase) : nat :=
  match ph with
  | Polling => 2
  | FinalDrain => 1
  | Returned => 0
  end.

Definition budget (s : sched) : nat :=
  5 * length (queue_input s) + sum_list_with weight (processes s)
  + 2 * length (queue_output s) + phase_weight (at_phase s).

Definition spares_workers (schedule : list action) : Prop :=
  Forall (λ a, ∀ i c, a ≠ WorkerDie i c) schedule.

End Batch.

Arguments holding {item} p.
Arguments accounted {item result} s.
Arguments no_failure {item} ps.
Arguments all_dead {item} ps.
Arguments failures {item} ps.
Arguments inv {item result} s.
Arguments inv_le {item result} s.
Arguments inv_eq {item result} s.
Arguments inv_clean_exit {item result} s.
Arguments inv_joined {item result} s.
Arguments inv_returned {item result} s.
Arguments inv_log_failed {item result} s.
Arguments inv_log_missing {item result} s.
Arguments weight {item} p.
Arguments budget {item result} s.

(** Two workers, set in the configuration. *)
Definition two_workers : Config :=
  {| cache_path := "./cache";
     maximum_cache_age := 7;
     force_cache_update := false;
     number_worker := 2 |}.

Definition label (url : string) : string * string := (url, "DEV").

End ProcessorSpec.

Module EditDistanceSpec.
Import EditDistance.

Section Recurrence.

Variables target source : text.
Variables cost_ins cost_del cost_sub : Z.

(** The recurrence the matrix is filled by, as a function of the two
    prefix lengths. *)
Fixpoint distance (i : nat) : nat → Z :=
  match i with
  | O => λ j, Z.of_nat j * cost_del
  | S i' =>
      fix row (j : nat) : Z :=
        match j with
        | O => Z.of_nat (S i') * cost_ins
        | S j' =>
            Z.min
              (Z.min (distance i' (S j') + cost_ins)
                     (distance i' j'
                      + substitution target source cost_sub (S i') (S j')))
              (row j' + cost_del)
        end
  end.

(** A matrix of [n + 1] rows of [m + 1] cells. *)
Definition shape (n m : nat) (matrix : list (list Z)) : Prop :=
  length matrix = (n + 1)%nat ∧ Forall (λ row, length row = (m + 1)%nat) matrix.

(** The first column, rows below [k] filled. *)
Definition column_filled (k : nat) (matrix : list (list Z)) : Prop :=
  shape (length target) (length source) matrix ∧ ∀ i, (i < k)%nat → cell matrix i 0 = distance i 0.

(** The first column and, of the first row, the cells before [k]. *)
Definition row_filled (k : nat) (matrix : list (list Z)) : Prop :=
  shape (length target) (length source) matrix
  ∧ (∀ i, (i ≤ length target)%nat → cell matrix i 0 = distance i 0)
  ∧ ∀ j, (j < k)%nat → cell matrix 0 j = distance 0 j.

(** The first column and the rows before [k]. *)
Definition rows_filled (k : nat) (matrix : list (list Z)) : Prop :=
  shape (length target) (length source) matrix
  ∧ (∀ i, (i ≤ length target)%nat → cell matrix i 0 = distance i 0)
  ∧ ∀ i j, (i < k)%nat → (j ≤ length source)%nat → cell matrix i j = distance i j.

(** The same, and of row [k] the cells before [l]. *)
Definition row_partly_filled (k l : nat) (matrix : list (list Z)) : Prop :=
  rows_filled k matrix ∧ ∀ j, (j < l)%nat → cell matrix k j = distance k j.

End Recurrence.

(** A string of characters below 256. *)
Definition latin1 (s : text) : Prop := Forall (λ c, (c < 256)%N) s.

End EditDistanceSpec.

Module UrlSpec.
Import Url.

(** Every character of [s] is in the class [p]. *)
Fixpoint all_chars (p : ascii → bool) (s : string) : bool :=
  match s with
  | String c s' => p c && all_chars p s'
  | EmptyString => true
  end.

(** A pattern without named groups. *)
Fixpoint capture_free (r : regex) : bool :=
  match r with
  | Seq r1 r2 => capture_free r1 && capture_free r2
  | Opt r' | NotAhead r' => capture_free r'
  | Named _ _ => false
  | _ => true
  end.

(** [_URL_RE] without its [(?!\.git)]. *)
Definition _URL_RE_without_lookahead : regex :=
  (Bol
   · Opt (literal "http" · Opt (Lit "s") · literal "://")
   · Opt (literal "www" · AnyChar)
   · literal "github" · AnyChar · literal "com/"
   · Named "dev" (StarClass name_char)
   · Lit "/"
   · Named "repo" (StarClass name_char)
   · Opt (Lit "/")
   · Eol)%re.

End UrlSpec.

Module ProcessorContent.
Import Processor ProcessorSpec.
Local Open Scope list_scope.

Section Batch.

Variables item result : Type.
Variable classify_item : item → result.

(** What a worker is about to put. *)
Definition in_hand (p : process item) : list result :=
  match p with
  | Working data => [classify_item data]
  | _ => []
  end.

(** The results there are and those still to come, in the order of one
    worker: collected, put, in a worker's hands, not yet taken. *)
Definition pending (s : sched item result) : list result :=
  results s ++ queue_output s ++ flat_map in_hand (processes s)
  ++ map classify_item (queue_input s).

(** With a single worker nothing overtakes anything. *)
Definition in_order (s : sched item result) : Prop :=
  ∃ p, processes s = [p]
       ∧ match p with
         | Exited _ => results s ++ queue_output s `prefix_of` map classify_item (input s)
         | _ => pending s = map classify_item (input s)
         end.

End Batch.

Arguments in_hand {item result} classify_item p.
Arguments pending {item result} classify_item s.
Arguments in_order {item result} classify_item s.

(** One worker, set in the configuration. *)
Definition one_worker : Config :=
  {| cache_path := "./cache";
     maximum_cache_age := 7;
     force_cache_update := false;
     number_worker := 1 |}.

End ProcessorContent.

Module GithubQueriesSpec.

(** A character other than [old]. *)
Definition is_not (old : ascii) (c : ascii) : bool := negb (Ascii.eqb c old).

(** A GitHub answer for a file: a JSON object with base64 content. *)
Definition file_response : fetch_outcome :=
  Response 200 (Some (JDict {[ "type" := JStr "file"; "encoding" := JStr "base64";
                               "content" := JStr "aGk=" ]})).

(** A stand-in for [base64.b64decode] in the examples. *)
Definition no_decoder (s : string) : outcome string := Raise ValueError.

End GithubQueriesSpec.

Module ValidateSpec.
Import Validate.
Local Open Scope list_scope.

(** What [Github.__eq__] compares. *)
Definition repo_key (e : entry) : string * string := (_dev (fst e), _repo (fst e)).

(** The shape the two inner loops share: the first entry of [others]
    for the repository of [data] decides. *)
Fixpoint first_agrees (others : list entry) (data : entry) (target_class : string) : bool :=
  match others with
  | t :: rest =>
      if Github_eq (fst t) (fst data) then String.eqb (snd t) target_class
      else first_agrees rest data target_class
  | [] => false
  end.

(** The shape the two outer loops share: the counters [count] and [tp]
    after the loop over [entries]. *)
Definition counters (others entries : list entry) (target_class : string) : nat * nat :=
  fold_left
    (λ '(count, tp) data,
       if String.eqb (snd data) target_class then
         (S count, if first_agrees others data target_class then S tp else tp)
       else (count, tp))
    entries (0%nat, 0%nat).

Definition ratio (count tp : nat) : Q :=
  if negb (count =? 0)%nat then (inject_Z (Z.of_nat tp) / inject_Z (Z.of_nat count))%Q
  else 0%Q.

(** A truth of two repositories for the examples. *)
Definition small_truth : list entry :=
  [(kana, "DEV"); (Github_init default_config anonymous "Top-Ranger" "ClassifyHub", "WEB")].

(** The loop of the counters, from any two counters. *)
Definition count_step (others : list entry) (target_class : string)
    (acc : nat * nat) (data : entry) : nat * nat :=
  let '(count, tp) := acc in
  if String.eqb (snd data) target_class then
    (S count, if first_agrees others data target_class then S tp else tp)
  else (count, tp).

(** The loop of [run_sets], from any two lists. *)
Definition sets_step {A} (run : nat) (datasets : list (list A))
    (acc : list A * list A) (i : nat) : list A * list A :=
  let '(learn, truth) := acc in
  if (i =? run)%nat then (learn, default [] (datasets !! i))
  else (learn ++ default [] (datasets !! i), truth).

End ValidateSpec.

Module ProcessorInputSpec.
Import Url UrlSpec UtilityClasses ProcessorInput.
Local Open Scope list_scope.

(** What one line adds to the list. *)
Definition parsed (cfg : Config) (secret : GithubSecret) (line : string) : list Github :=
  read_line cfg secret [] line.

(** The line of an input file for a repository. *)
Definition url_line (g : Github) : string := get_repo_url g +:+ String newline "".

Definition well_named (g : Github) : Prop :=
  all_chars name_char (_dev g) = true ∧ all_chars name_char (_repo g) = true.

(** An input file of two lines and a learning directory without the
    file of the class OTHER. *)
Definition small_disk : gmap string node :=
  {[ "./data/input.txt" := TextFile [url_line kana; String newline ""] true;
     "./data/learning" := Directory;
     "./data/learning/DEV" := TextFile [url_line kana] true;
     "./data/learning/HW" := TextFile [] true;
     "./data/learning/EDU" := TextFile [] true;
     "./data/learning/DOCS" := TextFile [] true;
     "./data/learning/WEB" := TextFile [] true;
     "./data/learning/DATA" := TextFile [] true ]}.

End ProcessorInputSpec.
(** ** Facts about the cache model *)

Lemma string_length_app (a b : string) :
  String.length (a ++ b) = (String.length a + String.length b)%nat.
Proof.
  induction a as [|c a IH]; [done|].
  change (String c a ++ b) with (String c (a ++ b)). cbn. by rewrite IH.
Qed.

Lemma marker_ne_data (p k : string) : p ++ k ++ "_ERROR_GITHUB" ≠ p ++ k.
Proof.
  intros H. apply (inj (String.app p)) in H.
  apply (f_equal String.length) in H. rewrite string_length_app in H.
  cbn in H. lia.
Qed.

Lemma marker_ne_metadata (p k : string) : p ++ k ++ "_ERROR_GITHUB" ≠ p ++ "METADATA".
Proof.
  intros H. apply (inj (String.app p)) in H.
  apply (f_equal String.length) in H. rewrite string_length_app in H.
  cbn in H. lia.
Qed.

Lemma data_ne_metadata (p k : string) : k ≠ "METADATA" → p ++ k ≠ p ++ "METADATA".
Proof. intros Hk H. by apply (inj (String.app p)) in H. Qed.

Lemma journal_roundtrip (m : gmap string Z) :
  json_to_journal (journal_to_json m) = Some m.
Proof.
  cbn. f_equal. apply map_eq. intros i.
  rewrite lookup_omap, lookup_fmap. by destruct (m !! i).
Qed.

(** [_read_metadata] by the cases of the METADATA file. *)
Ltac read_metadata_cases s :=
  unfold refreshed, _read_metadata, bind, get_self, read_file; cbn;
  destruct (fs s !! _); [destruct (_ ≫= _)|].

Lemma refreshed_fs s : fs (refreshed s) = fs s.
Proof. by read_metadata_cases s. Qed.

Lemma refreshed_requests s : requests (refreshed s) = requests s.
Proof. by read_metadata_cases s. Qed.

Lemma refreshed_path s : _path (self (refreshed s)) = _path (self s).
Proof. by read_metadata_cases s. Qed.

Lemma refreshed_secret s : _github_secret (self (refreshed s)) = _github_secret (self s).
Proof. by read_metadata_cases s. Qed.

Lemma read_metadata_eq s : _read_metadata s = (Val tt, refreshed s).
Proof. by read_metadata_cases s. Qed.

(** The journal is the METADATA file when there is one. *)
Lemma journal_on_disk s f :
  fs s !! (_path (self s) ++ "METADATA") = Some f →
  journal s = default ∅ (json_load f ≫= json_to_journal).
Proof.
  intros Hf. unfold journal, _read_metadata, bind, get_self, read_file. cbn.
  rewrite Hf. by destruct (_ ≫= _).
Qed.

Lemma journal_in_memory s :
  fs s !! (_path (self s) ++ "METADATA") = None →
  journal s = _cache_time (self s).
Proof.
  intros Hf. unfold journal, _read_metadata, bind, get_self, read_file. cbn.
  by rewrite Hf.
Qed.

Lemma journal_refreshed s : journal (refreshed s) = journal s.
Proof.
  destruct (fs s !! (_path (self s) ++ "METADATA")) as [f|] eqn:Hf.
  - rewrite (journal_on_disk (refreshed s) f), (journal_on_disk s f); try done.
    by rewrite refreshed_path, refreshed_fs.
  - rewrite (journal_in_memory (refreshed s)).
    + done.
    + by rewrite refreshed_path, refreshed_fs.
Qed.

Lemma test_cache_valid_eq cfg today k s :
  _test_cache_valid cfg today k s = (Val (valid_now cfg today s k), refreshed s).
Proof.
  unfold _test_cache_valid, bind. rewrite read_metadata_eq.
  unfold get_self, path_exists, ret. cbn.
  unfold valid_now, exists_data, exists_marker, age, journal.
  by rewrite refreshed_fs, refreshed_path.
Qed.

Lemma get_data_update_eq today net k url s :
  _get_data_update today net k url s =
  match classify net with
  | Success data =>
      (Val data, recorded today k (_path (self s) ++ k) (FData data) (asked k url s))
  | DefinitiveError =>
      (Raise GithubError,
       recorded today k (_path (self s) ++ k ++ "_ERROR_GITHUB") FEmpty (asked k url s))
  | RateLimited | ConnectionFailure => (Raise GithubError, asked k url s)
  | Undecodable e => (Raise e, asked k url s)
  end.
Proof.
  assert (Hd : (if exists_marker s k
                then delete (_path (self s) ++ k ++ "_ERROR_GITHUB") (fs s)
                else fs s) = delete (_path (self s) ++ k ++ "_ERROR_GITHUB") (fs s)).
  { unfold exists_marker. case_bool_decide as He; [done|].
    rewrite delete_id; [done|]. by apply eq_None_not_Some. }
  unfold _get_data_update, bind, get_self, path_exists, remove_file, send, ret,
    raise, lift, try_except, stamp, _save_metadata, write_file, set_cache_time.
  cbn. unfold exists_marker in Hd.
  unfold classify, asked, recorded.
  destruct (bool_decide _); cbn; [|rewrite <- Hd].
  all: destruct net as [|sc body]; cbn; [done|].
  all: destruct (sc =? 200)%Z; cbn; destruct (r_json body) as [data|]; cbn; try done.
  all: destruct (py_in "message" data) as [[]|]; cbn; try done.
  all: destruct (py_getitem data "message") as [msg|]; cbn; try done.
  all: by destruct (py_in "API rate limit exceeded" msg) as [[]|].
Qed.

Local Arguments _get_data_update : simpl never.

Lemma get_data_eq cfg today net k url s :
  _get_data cfg today net k url s =
  match served cfg today s k with
  | Some o => (o, refreshed s)
  | None => _get_data_update today net k url (refreshed s)
  end.
Proof.
  unfold _get_data, bind at 1, get_self at 1. cbn.
  unfold bind at 1. rewrite test_cache_valid_eq.
  unfold served, bind at 1.
  destruct (valid_now cfg today s k); cbn; [|done].
  unfold bind, path_exists, read_file, ret, raise. cbn.
  rewrite refreshed_fs. fold (exists_marker s k).
  destruct (exists_marker s k); cbn; [done|].
  rewrite ?refreshed_fs.
  by destruct (fs s !! _ ≫= json_load).
Qed.

(** A call that is not served from the cache sends exactly one request;
    a call that is served sends none. *)
Lemma get_data_requests cfg today net k url s :
  requests (snd (_get_data cfg today net k url s)) =
  match served cfg today s k with
  | Some _ => requests s
  | None => the_request (self s) url :: requests s
  end.
Proof.
  rewrite get_data_eq. destruct (served cfg today s k).
  - cbn. apply refreshed_requests.
  - rewrite get_data_update_eq. unfold the_request.
    destruct (classify net); cbn; unfold the_request;
      by rewrite ?refreshed_requests, ?refreshed_secret.
Qed.

Lemma recorded_path today k p f s : _path (self (recorded today k p f s)) = _path (self s).
Proof. done. Qed.

Lemma asked_path k url s : _path (self (asked k url s)) = _path (self s).
Proof. done. Qed.

Lemma journal_recorded today k p f s :
  journal (recorded today k p f s) = <[k := today]> (_cache_time (self s)).
Proof.
  erewrite journal_on_disk.
  2:{ cbn. apply lookup_insert_eq. }
  cbn -[journal_to_json json_to_journal]. by rewrite journal_roundtrip.
Qed.

Lemma cache_time_refreshed s : _cache_time (self (refreshed s)) = journal s.
Proof. done. Qed.

(** A call that sent a request was not served from the cache. *)
Lemma sent_not_served cfg today net k url s :
  requests (snd (_get_data cfg today net k url s)) ≠ requests s →
  served cfg today s k = None.
Proof.
  rewrite get_data_requests. by destruct (served cfg today s k).
Qed.

Lemma cons_ne {A} (x : A) (l : list A) : x :: l ≠ l.
Proof.
  intros H. apply (f_equal length) in H. cbn in H. lia.
Qed.

(** A marker with a journal entry in its window is served as the error. *)
Lemma served_marker cfg today s k d :
  is_Some (fs s !! (_path (self s) ++ k ++ "_ERROR_GITHUB")) →
  journal s !! k = Some d →
  force_cache_update cfg = false →
  Z.abs (today - d) < maximum_cache_age cfg →
  served cfg today s k = Some (Raise GithubError).
Proof.
  intros Hm Hj Hf Ha. unfold served, valid_now, age, exists_marker.
  rewrite Hj, Hf, (bool_decide_eq_true_2 _ Hm), orb_true_r. cbn.
  by rewrite (proj2 (Z.ltb_lt _ _) Ha).
Qed.

(** An entry whose age has reached the maximum is not served. *)
Lemma served_expired cfg today s k :
  maximum_cache_age cfg ≤ age cfg today s k →
  served cfg today s k = None.
Proof.
  intros Ha. unfold served, valid_now.
  rewrite (proj2 (Z.ltb_ge _ _) Ha). by rewrite andb_false_r.
Qed.

Lemma served_forced cfg today s k :
  force_cache_update cfg = true → served cfg today s k = None.
Proof.
  intros Hf. unfold served, valid_now. rewrite Hf. cbn. by rewrite andb_false_r.
Qed.

Lemma served_refreshed cfg today s k :
  served cfg today (refreshed s) k = served cfg today s k.
Proof.
  unfold served, valid_now, exists_data, exists_marker, age.
  by rewrite journal_refreshed, refreshed_fs, refreshed_path.
Qed.

(** A data file with a journal entry in its window and no marker is
    served as it is. *)
Lemma served_data cfg today s k d data :
  fs s !! (_path (self s) ++ k) = Some (FData data) →
  fs s !! (_path (self s) ++ k ++ "_ERROR_GITHUB") = None →
  journal s !! k = Some d →
  force_cache_update cfg = false →
  Z.abs (today - d) < maximum_cache_age cfg →
  served cfg today s k = Some (Val data).
Proof.
  intros Hd Hm Hj Hf Ha. unfold served, valid_now, age, exists_data, exists_marker.
  rewrite Hj, Hf, Hd, Hm. rewrite (bool_decide_eq_true_2 _) by eauto.
  rewrite (bool_decide_eq_false_2 _) by (by intros [? ?]).
  cbn. by rewrite (proj2 (Z.ltb_lt _ _) Ha).
Qed.

(** ** Facts about stale-lock recovery *)

Module UtilityFacts.
Import Utility UtilitySpec.
Local Open Scope list_scope.

Lemma hd_jitter_ok (l : list Q) : Forall jitter_ok l → jitter_ok (hd 0%Q l).
Proof.
  intros H. destruct H as [|r l Hr _]; cbn; [|done].
  split; [apply Qle_refl|reflexivity].
Qed.

Lemma tail_jitter_ok (l : list Q) : Forall jitter_ok l → Forall jitter_ok (tail l).
Proof. intros H. by destruct H. Qed.

(** One round of the gate loop when the gate is not held. *)
Lemma take_gate_once_spec test_lock time worker w :
  test_lock ∉ mine w →
  let w' := snd (take_gate_once test_lock time worker w) in
  let t := gate_timeout time worker (hd 0%Q (randoms w)) in
  answers w' = tail (answers w)
  ∧ randoms w' = tail (randoms w)
  ∧ mine w' ∖ {[test_lock]} = mine w ∖ {[test_lock]}
  ∧ (match answers w with
     | [] | Free :: _ =>
         (test_lock ∈ mine w') ∧ events w' = events w ++ [EvAcquire test_lock t]
     | Busy :: _ =>
         (test_lock ∉ mine w')
         ∧ events w' = events w ++ [EvAcquire test_lock t; EvBreakLock test_lock]
     | Broken :: _ =>
         (test_lock ∉ mine w') ∧ events w' = events w ++ [EvAcquire test_lock t]
     end).
Proof.
  intros Hn. unfold take_gate_once, try_except, catch, bind, random, acquire,
    break_lock, emit, raise, ret, gate_timeout. cbn.
  rewrite (bool_decide_eq_false_2 _ Hn).
  destruct (answers w) as [|[] ans]; cbn.
  all: repeat split; try done; try (by rewrite <- app_assoc).
  all: set_solver.
Qed.

(** The gate loop ends when it has more rounds than there are answers. *)
Lemma take_gate_spec test_lock time worker fuel :
  ∀ w, (length (answers w) < fuel)%nat →
       Forall jitter_ok (randoms w) →
       ∃ w1 pre,
         take_gate fuel test_lock time worker w = Some w1
         ∧ test_lock ∈ mine w1
         ∧ mine w1 ∖ {[test_lock]} = mine w ∖ {[test_lock]}
         ∧ events w1 = events w ++ pre
         ∧ Forall (gate_attempt test_lock time worker) pre.
Proof.
  induction fuel as [|fuel IH]; intros w Hlen Hr; [lia|].
  cbn [take_gate]. case_bool_decide as Hm.
  { exists w, []. by rewrite app_nil_r. }
  pose proof (take_gate_once_spec test_lock time worker w Hm) as Hstep.
  cbn zeta in Hstep. destruct Hstep as (Ha & Hrs & Hmine & Hcase).
  set (w' := snd (take_gate_once test_lock time worker w)) in *.
  assert (Hatt : gate_attempt test_lock time worker
                   (EvAcquire test_lock (gate_timeout time worker (hd 0%Q (randoms w))))).
  { right. exists (hd 0%Q (randoms w)). by destruct (hd_jitter_ok _ Hr). }
  assert (Hbrk : gate_attempt test_lock time worker (EvBreakLock test_lock))
    by (by left).
  assert (Hheld : test_lock ∈ mine w' →
                  ∀ pre, events w' = events w ++ pre →
                         Forall (gate_attempt test_lock time worker) pre →
                         ∃ w1 pre,
                           take_gate fuel test_lock time worker w' = Some w1
                           ∧ test_lock ∈ mine w1
                           ∧ mine w1 ∖ {[test_lock]} = mine w ∖ {[test_lock]}
                           ∧ events w1 = events w ++ pre
                           ∧ Forall (gate_attempt test_lock time worker) pre).
  { intros Hin pre He Hpre. exists w', pre.
    destruct fuel; cbn [take_gate]; by rewrite (bool_decide_eq_true_2 _ Hin). }
  assert (Hgo : (length (answers w') < fuel)%nat →
                ∀ pre, events w' = events w ++ pre →
                       Forall (gate_attempt test_lock time worker) pre →
                       ∃ w1 pre,
                         take_gate fuel test_lock time worker w' = Some w1
                         ∧ test_lock ∈ mine w1
                         ∧ mine w1 ∖ {[test_lock]} = mine w ∖ {[test_lock]}
                         ∧ events w1 = events w ++ pre
                         ∧ Forall (gate_attempt test_lock time worker) pre).
  { intros Hl pre He Hpre.
    destruct (IH w' Hl) as (w1 & pre' & Ht & Hin & Hm1 & He1 & Hp1).
    { rewrite Hrs. by apply tail_jitter_ok. }
    exists w1, (pre ++ pre'). split; [done|]. split; [done|].
    split; [by rewrite Hm1|]. split.
    - by rewrite He1, He, app_assoc.
    - by apply Forall_app. }
  destruct (answers w) as [|[] ans] eqn:Hans; cbn in Hlen.
  - destruct Hcase as [Hin He]. eapply Hheld; eauto.
  - destruct Hcase as [Hin He]. eapply Hheld; eauto.
  - destruct Hcase as [Hin He]. eapply Hgo; eauto. rewrite Ha. cbn. lia.
  - destruct Hcase as [Hin He]. eapply Hgo; eauto. rewrite Ha. cbn. lia.
Qed.

(** The probe, run by a process that holds the gate and not the lock. *)
Lemma probe_spec lock_path test_lock time w :
  lock_path ≠ test_lock →
  test_lock ∈ mine w →
  lock_path ∉ mine w →
  let '(res, w') := probe lock_path test_lock time w in
  match answers w with
  | [] | Free :: _ =>
      res = Val tt
      ∧ events w' = events w ++ [EvAcquire lock_path time; EvRelease lock_path;
                                 EvRelease test_lock]
  | Busy :: _ =>
      res = Val tt
      ∧ events w' = events w ++ [EvAcquire lock_path time; EvBreakLock lock_path;
                                 EvRelease test_lock]
  | Broken :: _ =>
      res = Raise LockFailed
      ∧ events w' = events w ++ [EvAcquire lock_path time]
      ∧ test_lock ∈ mine w'
  end.
Proof.
  intros Hne Hg Hl. unfold probe, catch, bind, acquire, release, break_lock,
    emit, raise, ret. cbn.
  rewrite (bool_decide_eq_false_2 _ Hl).
  destruct (answers w) as [|[] ans]; cbn.
  - rewrite (bool_decide_eq_true_2 (lock_path ∈ _)) by set_solver. cbn.
    rewrite (bool_decide_eq_true_2 (test_lock ∈ _)) by set_solver. cbn.
    by rewrite <- !app_assoc.
  - rewrite (bool_decide_eq_true_2 (lock_path ∈ _)) by set_solver. cbn.
    rewrite (bool_decide_eq_true_2 (test_lock ∈ _)) by set_solver. cbn.
    by rewrite <- !app_assoc.
  - rewrite (bool_decide_eq_true_2 (test_lock ∈ _)) by set_solver. cbn.
    by rewrite <- !app_assoc.
  - done.
Qed.

Lemma stale_ne (lock_path : string) : lock_path ≠ lock_path +:+ "_STALE".
Proof.
  intros H. apply (f_equal String.length) in H.
  rewrite string_length_app in H. cbn in H. lia.
Qed.

(** The gate's timeout is longer than the base timeout. *)
Lemma gate_timeout_longer (time : Q) (worker : Z) (r : Q) :
  (0 < time)%Q → (0 < worker)%Z → (0 <= r)%Q →
  (time < gate_timeout time worker r)%Q.
Proof.
  intros Ht Hw Hr. unfold gate_timeout.
  assert (H1 : (0 < time / 5 * inject_Z worker)%Q).
  { apply Qmult_lt_0_compat.
    - apply Qlt_shift_div_l; [reflexivity|]. by rewrite Qmult_0_l.
    - change 0%Q with (inject_Z 0). by rewrite <- Zlt_Qlt. }
  assert (H2 : (0 <= time / 2 * r)%Q).
  { apply Qmult_le_0_compat; [|done].
    apply Qle_shift_div_l; [reflexivity|]. rewrite Qmult_0_l. by apply Qlt_le_weak. }
  lra.
Qed.

End UtilityFacts.

(** ** Facts about the batch scheduler *)

Module ProcessorFacts.
Import Processor ProcessorSpec.
Local Open Scope list_scope.
Local Open Scope nat_scope.

Lemma sum_list_with_insert {A} (f : A → nat) (l : list A) (i : nat) (x y : A) :
  l !! i = Some x →
  sum_list_with f (<[i := y]> l) + f x = sum_list_with f l + f y.
Proof.
  revert i. induction l as [|a l IH]; intros [|i] Hi; try done.
  - cbn in Hi. injection Hi as ->. cbn. lia.
  - cbn in Hi. specialize (IH i Hi).
    change (<[S i := y]> (a :: l)) with (a :: <[i := y]> l).
    cbn [sum_list_with]. lia.
Qed.

Lemma elem_of_insert_inv {A} (l : list A) (i : nat) (x y : A) :
  x ∈ <[i := y]> l → x = y ∨ x ∈ l.
Proof.
  revert i. induction l as [|a l IH]; intros [|i]; cbn; try (by right).
  - intros [->|H]%elem_of_cons; [by left|]. right. by apply elem_of_cons; right.
  - intros [->|H]%elem_of_cons.
    + right. by apply elem_of_cons; left.
    + destruct (IH i H) as [->|H']; [by left|]. right. by apply elem_of_cons; right.
Qed.

Lemma Forall_insert_inv {A} (P : A → Prop) (l : list A) (i : nat) (x y : A) :
  l !! i = Some x → P x → Forall P (<[i := y]> l) → Forall P l.
Proof.
  revert i. induction l as [|a l IH]; intros [|i] Hi Hx HF; try done.
  - cbn in Hi. injection Hi as ->. cbn in HF.
    apply Forall_cons in HF as [_ HF]. by apply Forall_cons.
  - cbn in Hi, HF. apply Forall_cons in HF as [Ha HF].
    apply Forall_cons. split; [done|]. by apply (IH i).
Qed.

Section Batch.

Variables item result : Type.
Variable classify_item : item → result.

Abbreviation process := (Processor.process item).
Abbreviation sched := (Processor.sched item result).
Abbreviation step := (step classify_item).
Abbreviation run := (run classify_item).

Lemma all_dead_lookup (ps : list process) i p :
  all_dead ps → ps !! i = Some p → is_alive p = false.
Proof. intros H Hi. by apply (Forall_lookup_1 _ _ _ _ H Hi). Qed.

Lemma all_dead_holding (ps : list process) : all_dead ps → sum_list_with holding ps = 0.
Proof.
  induction 1 as [|p ps Hp _ IH]; [done|]. cbn. rewrite IH.
  by destruct p.
Qed.

Lemma no_failure_insert_inv (ps : list process) i p q :
  ps !! i = Some p → has_failed p = false →
  no_failure (<[i := q]> ps) → no_failure ps.
Proof. intros Hi Hp. by apply Forall_insert_inv with (x := p). Qed.

Lemma no_failure_insert_failed (ps : list process) i p c :
  ps !! i = Some p → c ≠ 0%Z → ¬ no_failure (<[i := Exited c]> ps).
Proof.
  intros Hi Hc HF.
  assert (Hlt : i < length ps) by (by apply lookup_lt_Some with p).
  pose proof (Forall_lookup_1 _ _ i (Exited c) HF
                (list_lookup_insert_eq ps i (Exited c) Hlt)) as H.
  cbn in H. apply negb_false_iff, Z.eqb_eq in H. done.
Qed.

Lemma step_input a (s s' : sched) : step a s = Some s' → input s' = input s.
Proof.
  intros H. destruct a as [i []| | |]; cbn in H; repeat case_match; by simplify_eq.
Qed.

(** A worker that can still move rules out every phase but [Polling]. *)
Lemma alive_polling (s : sched) i p :
  inv s → processes s !! i = Some p → is_alive p = true →
  at_phase s = Polling.
Proof.
  intros Hinv Hi Ha. destruct (at_phase s) eqn:Hph; [done|..].
  - assert (Hd : all_dead (processes s)) by (apply Hinv; by rewrite Hph).
    rewrite (all_dead_lookup _ _ _ Hd Hi) in Ha. done.
  - assert (Hd : all_dead (processes s)) by (apply Hinv; by rewrite Hph).
    rewrite (all_dead_lookup _ _ _ Hd Hi) in Ha. done.
Qed.

Lemma inv_worker_get (s : sched) i data rest :
  inv s → processes s !! i = Some Idle → queue_input s = data :: rest →
  inv {| input := input s; queue_input := rest; queue_output := queue_output s;
         processes := <[i := Working data]> (processes s);
         results := results s; at_phase := at_phase s; log := log s |}.
Proof.
  intros Hinv Hi Hq.
  pose proof (alive_polling s i Idle Hinv Hi eq_refl) as Hph.
  pose proof (sum_list_with_insert holding _ i Idle (Working data) Hi) as Hsum.
  cbn in Hsum.
  pose proof (inv_le s Hinv) as Hle. unfold accounted in Hle. rewrite Hq in Hle.
  cbn in Hle.
  split; cbn; unfold accounted; cbn; try (by rewrite Hph).
  - lia.
  - intros Hnf. apply (no_failure_insert_inv _ _ Idle) in Hnf; [|done..].
    pose proof (inv_eq s Hinv Hnf) as Heq. unfold accounted in Heq.
    rewrite Hq in Heq. cbn in Heq. lia.
  - intros [?|Hin]%elem_of_insert_inv; [done|].
    pose proof (inv_clean_exit s Hinv Hin) as H. by rewrite Hq in H.
Qed.

Lemma inv_worker_empty (s : sched) i :
  inv s → processes s !! i = Some Idle → queue_input s = [] →
  inv (set_process i (Exited 0) s).
Proof.
  intros Hinv Hi Hq.
  pose proof (alive_polling s i Idle Hinv Hi eq_refl) as Hph.
  pose proof (sum_list_with_insert holding _ i Idle (Exited 0) Hi) as Hsum.
  cbn in Hsum.
  pose proof (inv_le s Hinv) as Hle. unfold accounted in Hle.
  split; cbn; unfold accounted; cbn; try (by rewrite Hph).
  - lia.
  - intros Hnf. apply (no_failure_insert_inv _ _ Idle) in Hnf; [|done..].
    pose proof (inv_eq s Hinv Hnf) as Heq. unfold accounted in Heq. lia.
  - done.
Qed.

Lemma inv_worker_put (s : sched) i data :
  inv s → processes s !! i = Some (Working data) →
  inv {| input := input s; queue_input := queue_input s;
         queue_output := queue_output s ++ [classify_item data];
         processes := <[i := Idle]> (processes s);
         results := results s; at_phase := at_phase s; log := log s |}.
Proof.
  intros Hinv Hi.
  pose proof (alive_polling s i _ Hinv Hi eq_refl) as Hph.
  pose proof (sum_list_with_insert holding _ i _ Idle Hi) as Hsum.
  cbn in Hsum.
  pose proof (inv_le s Hinv) as Hle. unfold accounted in Hle.
  split; cbn; unfold accounted; cbn; rewrite ?length_app; cbn;
    try (by rewrite Hph).
  - lia.
  - intros Hnf. apply (no_failure_insert_inv _ _ (Working data)) in Hnf; [|done..].
    pose proof (inv_eq s Hinv Hnf) as Heq. unfold accounted in Heq. lia.
  - intros [?|Hin]%elem_of_insert_inv; [done|].
    apply (inv_clean_exit s Hinv Hin).
Qed.

Lemma inv_worker_die (s : sched) i p c :
  inv s → processes s !! i = Some p → is_alive p = true → c ≠ 0%Z →
  inv (set_process i (Exited c) s).
Proof.
  intros Hinv Hi Ha Hc.
  pose proof (alive_polling s i _ Hinv Hi Ha) as Hph.
  pose proof (sum_list_with_insert holding _ i _ (Exited c) Hi) as Hsum.
  cbn in Hsum.
  pose proof (inv_le s Hinv) as Hle. unfold accounted in Hle.
  split; cbn; unfold accounted; cbn; try (by rewrite Hph).
  - lia.
  - intros Hnf. by apply (no_failure_insert_failed _ _ p) in Hnf.
  - intros [Heq|Hin]%elem_of_insert_inv.
    + injection Heq as Heq. by subst c.
    + apply (inv_clean_exit s Hinv Hin).
Qed.

Lemma forallb_dead (ps : list process) :
  forallb (λ p, negb (is_alive p)) ps = true ↔ all_dead ps.
Proof.
  unfold all_dead. rewrite forallb_forall, Forall_forall.
  split; intros H p Hp.
  - apply negb_true_iff, H. by apply list_elem_of_In.
  - apply negb_true_iff, H. by apply list_elem_of_In.
Qed.

Lemma inv_step a (s s' : sched) : inv s → step a s = Some s' → inv s'.
Proof.
  intros Hinv Hstep. destruct a as [i [| | |c]| | |]; cbn in Hstep.
  - destruct (processes s !! i) as [[| |]|] eqn:Hi; try done.
    destruct (queue_input s) as [|data rest] eqn:Hq; [done|].
    injection Hstep as <-. by apply inv_worker_get.
  - destruct (processes s !! i) as [[| |]|] eqn:Hi; try done.
    destruct (queue_input s) as [|data rest] eqn:Hq; [|done].
    injection Hstep as <-. by apply inv_worker_empty.
  - destruct (processes s !! i) as [[|data|]|] eqn:Hi; try done.
    injection Hstep as <-. by apply inv_worker_put.
  - destruct (processes s !! i) as [p|] eqn:Hi; [|done].
    destruct (is_alive p) eqn:Ha; [|done].
    destruct (c =? 0)%Z eqn:Hc; [done|]. cbn in Hstep.
    injection Hstep as <-. apply Z.eqb_neq in Hc. by apply inv_worker_die with p.
  - assert (Hph : at_phase s ≠ Returned) by (by destruct (at_phase s)).
    destruct (queue_output s) as [|r rest] eqn:Hq; [by destruct (at_phase s)|].
    assert (s' = {| input := input s; queue_input := queue_input s;
                    queue_output := rest; processes := processes s;
                    results := results s ++ [r];
                    at_phase := at_phase s; log := log s |}) as ->
      by (destruct (at_phase s); by simplify_eq).
    pose proof (inv_le s Hinv) as Hle. unfold accounted in Hle.
    rewrite Hq in Hle. cbn in Hle.
    split; cbn; unfold accounted; cbn; rewrite ?length_app; cbn; try done.
    + lia.
    + intros Hnf. pose proof (inv_eq s Hinv Hnf) as Heq. unfold accounted in Heq.
      rewrite Hq in Heq. cbn in Heq. lia.
    + apply Hinv.
    + apply Hinv.
    + apply Hinv.
  - destruct (at_phase s) eqn:Hph; try done.
    destruct (forallb _ (processes s)) eqn:Hd; [|done].
    apply forallb_dead in Hd. injection Hstep as <-.
    split; cbn; try done; try apply Hinv.
    intros _ Hf. unfold failures in *.
    destruct (length (filter _ (processes s))); [lia|].
    apply elem_of_app. right.
    by apply list_elem_of_singleton.
  - destruct (at_phase s) eqn:Hph; try done.
    destruct (queue_output s) as [|r rest] eqn:Hq; [|done].
    injection Hstep as <-.
    pose proof (inv_le s Hinv) as Hle. unfold accounted in Hle.
    rewrite Hq in Hle. cbn in Hle.
    split; cbn; unfold accounted; cbn; rewrite ?Hq; cbn; try done;
      try apply Hinv.
    + intros Hnf. pose proof (inv_eq s Hinv Hnf) as Heq. unfold accounted in Heq.
      rewrite Hq in Heq. cbn in Heq. lia.
    + intros _. apply Hinv. by rewrite Hph.
    + intros _ Hf. unfold failures in *.
      assert (Hin : LogFailed (failures (processes s)) ∈ log s)
        by (apply Hinv; [by rewrite Hph|done]).
      destruct (negb _); [|done]. apply elem_of_app. by left.
    + intros _ Hne. apply Nat.eqb_neq in Hne. rewrite Hne. cbn.
      apply elem_of_app. right. by apply list_elem_of_singleton.
Qed.

Lemma inv_run schedule : ∀ s s' : sched, inv s → run schedule s = Some s' → inv s'.
Proof.
  induction schedule as [|a schedule IH]; intros s s' Hinv Hrun; cbn in Hrun.
  - by injection Hrun as <-.
  - destruct (step a s) as [s1|] eqn:Hstep; [|done].
    apply (IH s1); [|done]. by apply inv_step with a s.
Qed.

Lemma run_input schedule : ∀ s s' : sched, run schedule s = Some s' → input s' = input s.
Proof.
  induction schedule as [|a schedule IH]; intros s s' Hrun; cbn in Hrun.
  - by injection Hrun as <-.
  - destruct (step a s) as [s1|] eqn:Hstep; [|done].
    rewrite (IH _ _ Hrun). by apply step_input with a.
Qed.

Lemma run_app sch1 sch2 : ∀ s : sched,
  run (sch1 ++ sch2) s =
  match run sch1 s with
  | Some s1 => run sch2 s1
  | None => None
  end.
Proof.
  induction sch1 as [|a sch1 IH]; intros s; cbn; [done|].
  by destruct (step a s).
Qed.

Lemma inv_start cfg cpu_count (input : list item) :
  inv (start (result := result) cfg cpu_count input).
Proof.
  assert (Hsum : ∀ n, sum_list_with holding (replicate n (@Idle item)) = 0).
  { induction n as [|n IH]; [done|]. cbn. by rewrite IH. }
  split; cbn; unfold accounted; cbn; rewrite ?Hsum; try done.
  - lia.
  - intros _. lia.
  - by intros [? _]%elem_of_replicate.
Qed.

(** *** Every run ends

    Each action uses up some of a finite budget: an item waiting in
    the input queue counts 5, a worker holding one 4, a result in the
    output queue 2, an idle worker 1, and the submitting process 2, 1
    or 0 by its phase. *)

Lemma step_budget a (s s' : sched) : step a s = Some s' → budget s' < budget s.
Proof.
  intros Hstep. destruct a as [i [| | |c]| | |]; cbn in Hstep.
  - destruct (processes s !! i) as [[| |]|] eqn:Hi; try done.
    destruct (queue_input s) as [|data rest] eqn:Hq; [done|].
    injection Hstep as <-.
    pose proof (sum_list_with_insert weight _ i _ (Working data) Hi) as Hsum.
    unfold budget. cbn in *. rewrite Hq. cbn. lia.
  - destruct (processes s !! i) as [[| |]|] eqn:Hi; try done.
    destruct (queue_input s) as [|data rest] eqn:Hq; [|done].
    injection Hstep as <-.
    pose proof (sum_list_with_insert weight _ i _ (Exited 0) Hi) as Hsum.
    unfold budget. cbn in *. rewrite Hq. cbn. lia.
  - destruct (processes s !! i) as [[|data|]|] eqn:Hi; try done.
    injection Hstep as <-.
    pose proof (sum_list_with_insert weight _ i _ Idle Hi) as Hsum.
    unfold budget. cbn in *. rewrite length_app. cbn. lia.
  - destruct (processes s !! i) as [p|] eqn:Hi; [|done].
    destruct (is_alive p) eqn:Ha; [|done].
    destruct (c =? 0)%Z eqn:Hc; [done|]. cbn in Hstep.
    injection Hstep as <-.
    pose proof (sum_list_with_insert weight _ i _ (Exited c) Hi) as Hsum.
    unfold budget. cbn in *. destruct p; cbn in *; try done; lia.
  - destruct (queue_output s) as [|r rest] eqn:Hq; [by destruct (at_phase s)|].
    assert (s' = {| input := input s; queue_input := queue_input s;
                    queue_output := rest; processes := processes s;
                    results := results s ++ [r];
                    at_phase := at_phase s; log := log s |}) as ->
      by (destruct (at_phase s); by simplify_eq).
    unfold budget. cbn. rewrite Hq. cbn. lia.
  - destruct (at_phase s) eqn:Hph; try done.
    destruct (forallb _ (processes s)) eqn:Hd; [|done].
    injection Hstep as <-. unfold budget. cbn. rewrite Hph. cbn. lia.
  - destruct (at_phase s) eqn:Hph; try done.
    destruct (queue_output s) as [|r rest] eqn:Hq; [|done].
    injection Hstep as <-. unfold budget. cbn. rewrite Hph, Hq. cbn. lia.
Qed.

Lemma run_budget schedule : ∀ s s' : sched,
  run schedule s = Some s' → length schedule + budget s' ≤ budget s.
Proof.
  induction schedule as [|a schedule IH]; intros s s' Hrun; cbn in Hrun.
  - injection Hrun as <-. cbn. lia.
  - destruct (step a s) as [s1|] eqn:Hstep; [|done].
    apply IH in Hrun. apply step_budget in Hstep. cbn [length]. lia.
Qed.

Lemma forallb_false_lookup {A} (f : A → bool) (l : list A) :
  forallb f l = false → ∃ i x, l !! i = Some x ∧ f x = false.
Proof.
  induction l as [|a l IH]; cbn; [done|].
  destruct (f a) eqn:Ha; cbn.
  - intros (i & x & Hi & Hx)%IH. by exists (S i), x.
  - intros _. by exists 0, a.
Qed.

(** Before the return some action is always possible, and one that is
    no death of a worker. *)
Lemma progress (s : sched) :
  at_phase s ≠ Returned →
  ∃ a s', step a s = Some s' ∧ ∀ i c, a ≠ WorkerDie i c.
Proof.
  intros Hph. destruct (at_phase s) eqn:Hp; [| |done].
  - destruct (forallb (λ p, negb (is_alive p)) (processes s)) eqn:Hd.
    + eexists AllDead, _. cbn. by rewrite Hp, Hd.
    + apply forallb_false_lookup in Hd as (i & p & Hi & Ha).
      apply negb_false_iff in Ha. destruct p as [|data|c]; [| |done].
      * destruct (queue_input s) as [|data rest] eqn:Hq.
        -- eexists (WorkerEmpty i), _. cbn. by rewrite Hi, Hq.
        -- eexists (WorkerGet i), _. cbn. by rewrite Hi, Hq.
      * eexists (WorkerPut i), _. cbn. by rewrite Hi.
  - destruct (queue_output s) as [|r rest] eqn:Hq.
    + eexists Finish, _. cbn. by rewrite Hp, Hq.
    + eexists Drain, _. cbn. by rewrite Hp, Hq.
Qed.

(** From any state the run can be taken to the return of [batch]. *)
Lemma completable n : ∀ s : sched,
  budget s ≤ n →
  ∃ rest s', run rest s = Some s' ∧ at_phase s' = Returned ∧ spares_workers rest.
Proof.
  induction n as [|n IH]; intros s Hn.
  - destruct (at_phase s) eqn:Hp.
    + unfold budget in Hn. rewrite Hp in Hn. cbn in Hn. lia.
    + unfold budget in Hn. rewrite Hp in Hn. cbn in Hn. lia.
    + exists [], s. by repeat split; [|constructor].
  - destruct (at_phase s) eqn:Hp.
    3:{ exists [], s. by repeat split; [|constructor]. }
    all: destruct (progress s) as (a & s1 & Hstep & Ha); [by rewrite Hp|].
    all: pose proof (step_budget _ _ _ Hstep) as Hb.
    all: destruct (IH s1) as (rest & s' & Hrun & Hret & Hsp); [lia|].
    all: exists (a :: rest), s'; cbn; rewrite Hstep.
    all: split; [done|]; split; [done|]; by constructor.
Qed.

Lemma step_processes a (s s' : sched) :
  step a s = Some s' → length (processes s') = length (processes s).
Proof.
  intros H. destruct a as [i []| | |]; cbn in H; repeat case_match; simplify_eq; cbn;
    by rewrite ?length_insert.
Qed.

Lemma run_processes schedule : ∀ s s' : sched,
  run schedule s = Some s' → length (processes s') = length (processes s).
Proof.
  induction schedule as [|a schedule IH]; intros s s' Hrun; cbn in Hrun.
  - by injection Hrun as <-.
  - destruct (step a s) as [s1|] eqn:Hstep; [|done].
    rewrite (IH _ _ Hrun). by apply step_processes with a.
Qed.

Lemma budget_start cfg cpu_count (input : list item) :
  budget (start (result := result) cfg cpu_count input)
  = 5 * length input + Z.to_nat (worker cfg cpu_count) + 2.
Proof.
  assert (Hsum : ∀ n, sum_list_with weight (replicate n (@Idle item)) = n).
  { induction n as [|n IH]; [done|]. cbn. by rewrite IH. }
  unfold budget. cbn [start queue_input processes queue_output at_phase].
  rewrite Hsum. cbn [length phase_weight]. lia.
Qed.

(** What [batch] has collected when it returns. *)
Lemma returned_count (s : sched) :
  inv s → at_phase s = Returned →
  length (results s) ≤ length (input s)
  ∧ (processes s ≠ [] → no_failure (processes s) →
     length (results s) = length (input s)).
Proof.
  intros Hinv Hph.
  assert (Hd : all_dead (processes s)) by (apply Hinv; by rewrite Hph).
  pose proof (all_dead_holding _ Hd) as Hh.
  pose proof (inv_returned s Hinv Hph) as Hq.
  pose proof (inv_le s Hinv) as Hle. unfold accounted in Hle.
  rewrite Hh, Hq in Hle. cbn in Hle.
  split; [lia|]. intros Hne Hnf.
  pose proof (inv_eq s Hinv Hnf) as Heq. unfold accounted in Heq.
  rewrite Hh, Hq in Heq. cbn in Heq.
  assert (Hin : Exited 0 ∈ processes s).
  { destruct (processes s) as [|p ps] eqn:Hps; [done|].
    apply Forall_cons in Hd as [Hp _]. apply Forall_cons in Hnf as [Hf _].
    destruct p as [| |c]; try done. cbn in Hf.
    apply negb_false_iff, Z.eqb_eq in Hf. subst c. by apply elem_of_cons; left. }
  pose proof (inv_clean_exit s Hinv Hin) as Hqi. rewrite Hqi in Heq. cbn in Heq. lia.
Qed.

End Batch.
End ProcessorFacts.

(** ** Facts about the edit distance *)

Module EditDistanceFacts.
Import EditDistance EditDistanceSpec.
Local Open Scope list_scope.

Lemma fold_seq_inv {A} (f : A → nat → A) (P : nat → A → Prop) (len : nat) :
  ∀ start a,
    P start a →
    (∀ k a, (start ≤ k < start + len)%nat → P k a → P (S k) (f a k)) →
    P (start + len)%nat (fold_left f (seq start len) a).
Proof.
  induction len as [|len IH]; intros start a Ha Hstep; cbn.
  - by rewrite Nat.add_0_r.
  - replace (start + S len)%nat with (S start + len)%nat by lia.
    apply IH.
    + apply Hstep; [lia|done].
    + intros k b Hk. apply Hstep. lia.
Qed.

Lemma cell_set_cell_eq n m matrix i j v :
  shape n m matrix → (i ≤ n)%nat → (j ≤ m)%nat →
  cell (set_cell matrix i j v) i j = v.
Proof.
  intros [Hl Hr] Hi Hj. unfold cell, set_cell.
  rewrite list_lookup_alter_eq.
  destruct (matrix !! i) as [row|] eqn:Hrow.
  - cbn. rewrite list_lookup_insert_eq; [done|].
    rewrite Forall_forall in Hr. rewrite (Hr row); [lia|].
    by apply list_elem_of_lookup_2 with i.
  - apply lookup_ge_None in Hrow. lia.
Qed.

Lemma cell_set_cell_ne matrix i j v i' j' :
  (i, j) ≠ (i', j') →
  cell (set_cell matrix i j v) i' j' = cell matrix i' j'.
Proof.
  intros Hne. unfold cell, set_cell.
  destruct (decide (i = i')) as [->|Hi].
  - rewrite list_lookup_alter_eq. destruct (matrix !! i') as [row|]; [|done].
    cbn. rewrite list_lookup_insert_ne; [done|]. congruence.
  - by rewrite list_lookup_alter_ne.
Qed.

Lemma shape_set_cell n m matrix i j v :
  shape n m matrix → shape n m (set_cell matrix i j v).
Proof.
  intros [Hl Hr]. unfold set_cell. split.
  - by rewrite length_alter.
  - apply Forall_alter; [done|]. intros row Hrow Hlen.
    by rewrite length_insert.
Qed.

Lemma shape_replicate n m : shape n m (replicate (n + 1) (replicate (m + 1) 0)).
Proof.
  split.
  - apply length_replicate.
  - apply Forall_replicate. apply length_replicate.
Qed.

Lemma cell_replicate n m i j :
  (i ≤ n)%nat → (j ≤ m)%nat →
  cell (replicate (n + 1) (replicate (m + 1) 0)) i j = 0.
Proof.
  intros Hi Hj. unfold cell.
  rewrite lookup_replicate_2 by lia. cbn.
  by rewrite lookup_replicate_2 by lia.
Qed.

Section Refinement.

Variables target source : text.
Variables cost_ins cost_del cost_sub : Z.

Abbreviation D := (distance target source cost_ins cost_del cost_sub).
Abbreviation n := (length target).
Abbreviation m := (length source).
Abbreviation column_filled :=
  (EditDistanceSpec.column_filled target source cost_ins cost_del cost_sub).
Abbreviation row_filled :=
  (EditDistanceSpec.row_filled target source cost_ins cost_del cost_sub).
Abbreviation rows_filled :=
  (EditDistanceSpec.rows_filled target source cost_ins cost_del cost_sub).
Abbreviation row_partly_filled :=
  (EditDistanceSpec.row_partly_filled target source cost_ins cost_del cost_sub).

Lemma distance_0_r i : D i 0 = Z.of_nat i * cost_ins.
Proof. destruct i; cbn; lia. Qed.

Lemma distance_S_S i j :
  D (S i) (S j) =
  Z.min (Z.min (D i (S j) + cost_ins)
               (D i j + substitution target source cost_sub (S i) (S j)))
        (D (S i) j + cost_del).
Proof. done. Qed.

Lemma edit_distance_distance :
  edit_distance target source cost_ins cost_del cost_sub = D n m.
Proof.
  unfold edit_distance. cbn zeta.
  set (M0 := replicate (n + 1) (replicate (m + 1) 0)).
  set (f1 := λ matrix i, set_cell matrix i 0 (cell matrix (i - 1) 0 + cost_ins)).
  set (f2 := λ matrix j, set_cell matrix 0 j (cell matrix 0 (j - 1) + cost_del)).
  set (g := λ i matrix j,
              set_cell matrix i j
                (Z.min
                   (Z.min (cell matrix (i - 1) j + cost_ins)
                          (cell matrix (i - 1) (j - 1)
                           + substitution target source cost_sub i j))
                   (cell matrix i (j - 1) + cost_del))).
  assert (H1 : column_filled (1 + n) (fold_left f1 (seq 1 n) M0)).
  { apply (fold_seq_inv f1 column_filled).
    - split; [apply shape_replicate|]. intros i Hi.
      assert (i = 0)%nat as -> by lia. unfold M0. by rewrite cell_replicate by lia.
    - intros k M Hk [Hs Hc]. split; [by apply shape_set_cell|].
      intros i Hi. unfold f1. destruct (decide (i = k)) as [->|Hne].
      + rewrite (cell_set_cell_eq n m) by (done || lia).
        rewrite Hc by lia. rewrite !distance_0_r.
        destruct k as [|k]; [lia|]. replace (S k - 1)%nat with k by lia. lia.
      + rewrite cell_set_cell_ne by congruence. apply Hc. lia. }
  set (M1 := fold_left f1 (seq 1 n) M0) in *.
  assert (H2 : row_filled (1 + m) (fold_left f2 (seq 1 m) M1)).
  { apply (fold_seq_inv f2 row_filled).
    - destruct H1 as [Hs Hc]. split; [done|]. split.
      + intros i Hi. apply Hc. lia.
      + intros j Hj. assert (j = 0)%nat as -> by lia. apply Hc. lia.
    - intros k M Hk (Hs & Hc & Hr). split; [by apply shape_set_cell|]. split.
      + intros i Hi. unfold f2. rewrite cell_set_cell_ne; [by apply Hc|].
        intros [=]. lia.
      + intros j Hj. unfold f2. destruct (decide (j = k)) as [->|Hne].
        * rewrite (cell_set_cell_eq n m) by (done || lia).
          rewrite Hr by lia. destruct k; [lia|]. cbn.
          replace (k - 0)%nat with k by lia. lia.
        * rewrite cell_set_cell_ne by congruence. apply Hr. lia. }
  set (M2 := fold_left f2 (seq 1 m) M1) in *.
  assert (H3 : rows_filled (1 + n)
                 (fold_left (λ matrix i, fold_left (g i) (seq 1 m) matrix) (seq 1 n) M2)).
  { apply (fold_seq_inv (λ matrix i, fold_left (g i) (seq 1 m) matrix) rows_filled).
    - destruct H2 as (Hs & Hc & Hr). split; [done|]. split; [done|].
      intros i j Hi Hj. assert (i = 0)%nat as -> by lia. apply Hr. lia.
    - intros k M Hk HM.
      assert (Hrow : row_partly_filled k (1 + m) (fold_left (g k) (seq 1 m) M)).
      { apply (fold_seq_inv (g k) (row_partly_filled k)).
        - split; [done|]. intros j Hj. assert (j = 0)%nat as -> by lia.
          destruct HM as (_ & Hc & _). apply Hc. lia.
        - intros l M' Hl [(Hs & Hc & Hf) Hp].
          split; [split; [by apply shape_set_cell|split]|].
          + intros i Hi. unfold g. rewrite cell_set_cell_ne; [by apply Hc|].
            intros [=]. lia.
          + intros i j Hi Hj. unfold g. rewrite cell_set_cell_ne; [by apply Hf|].
            intros [=]. lia.
          + intros j Hj. unfold g. destruct (decide (j = l)) as [->|Hne].
            * rewrite (cell_set_cell_eq n m) by (done || lia).
              destruct k as [|k]; [lia|]. destruct l as [|l]; [lia|].
              replace (S k - 1)%nat with k by lia.
              replace (S l - 1)%nat with l by lia.
              rewrite (Hf k (S l)) by lia. rewrite (Hf k l) by lia.
              rewrite (Hp l) by lia. by rewrite distance_S_S.
            * rewrite cell_set_cell_ne by congruence. apply Hp. lia. }
      destruct Hrow as [(Hs & Hc & Hf) Hp]. split; [done|]. split; [done|].
      intros i j Hi Hj. destruct (decide (i = k)) as [->|Hne].
      + apply Hp. lia.
      + apply Hf; lia. }
  destruct H3 as (_ & _ & Hf). apply Hf; lia.
Qed.

Lemma substitution_bounds i j :
  0 ≤ cost_sub →
  0 ≤ substitution target source cost_sub i j ≤ cost_sub.
Proof. intros Hs. unfold substitution. repeat case_match; lia. Qed.

Lemma distance_nonneg :
  0 ≤ cost_ins → 0 ≤ cost_del → 0 ≤ cost_sub → ∀ i j, 0 ≤ D i j.
Proof.
  intros Hi Hd Hs. induction i as [|i IHi]; intros j.
  - cbn. lia.
  - induction j as [|j IHj].
    + rewrite distance_0_r. lia.
    + rewrite distance_S_S. pose proof (IHi (S j)). pose proof (IHi j).
      pose proof (substitution_bounds (S i) (S j) Hs). lia.
Qed.

Lemma distance_zero :
  0 < cost_ins → 0 < cost_del → 0 < cost_sub →
  ∀ i j, D i j = 0 →
         i = j ∧ ∀ k, (k < i)%nat →
                      ∃ c, target !! k = Some c ∧ source !! k = Some c ∧ (c < 256)%N.
Proof.
  intros Hi Hd Hs.
  assert (Hnn : ∀ i j, 0 ≤ D i j) by (apply distance_nonneg; lia).
  induction i as [|i IHi]; intros j.
  - cbn. intros H. split; [lia|]. intros k Hk. lia.
  - destruct j as [|j].
    + rewrite distance_0_r. lia.
    + rewrite distance_S_S. intros H.
      pose proof (Hnn i (S j)). pose proof (Hnn i j). pose proof (Hnn (S i) j).
      unfold substitution in H.
      replace (S j - 1)%nat with j in H by lia.
      replace (S i - 1)%nat with i in H by lia.
      destruct (source !! j) as [c|] eqn:Hc; [|lia].
      destruct (target !! i) as [d|] eqn:Hd'; [|lia].
      destruct (same_object c d) eqn:Hsame; [|lia].
      assert (Hzero : D i j = 0) by lia.
      destruct (IHi j Hzero) as [-> Hk]. split; [done|].
      intros k Hlt. destruct (decide (k = j)) as [->|Hne]; [|apply Hk; lia].
      apply andb_true_iff in Hsame as [->%N.eqb_eq Hlt'%N.ltb_lt].
      by exists d.
Qed.

End Refinement.

Lemma distance_diagonal (s : text) (cost_ins cost_del cost_sub : Z) :
  0 ≤ cost_ins → 0 ≤ cost_del → 0 ≤ cost_sub →
  latin1 s →
  ∀ i, (i ≤ length s)%nat → distance s s cost_ins cost_del cost_sub i i = 0.
Proof.
  intros Hi Hd Hs Hl. induction i as [|i IH]; intros Hlen; [done|].
  rewrite distance_S_S.
  pose proof (distance_nonneg s s _ _ _ Hi Hd Hs i (S i)).
  pose proof (distance_nonneg s s _ _ _ Hi Hd Hs (S i) i).
  rewrite IH by lia.
  unfold substitution. replace (S i - 1)%nat with i by lia.
  destruct (lookup_lt_is_Some_2 s i) as [c Hc]; [lia|]. rewrite Hc.
  assert (same_object c c = true) as ->; [|lia].
  unfold same_object. rewrite N.eqb_refl. cbn. apply N.ltb_lt.
  by apply (Forall_lookup_1 _ _ _ _ Hl Hc).
Qed.

Lemma same_object_sym c d : same_object c d = same_object d c.
Proof.
  unfold same_object. destruct (N.eqb_spec c d) as [->|Hne].
  - by rewrite N.eqb_refl.
  - by rewrite (proj2 (N.eqb_neq d c)) by done.
Qed.

Lemma distance_swap (target source : text) (cost_ins cost_del cost_sub : Z) :
  ∀ i j, distance target source cost_ins cost_del cost_sub i j
         = distance source target cost_del cost_ins cost_sub j i.
Proof.
  induction i as [|i IHi]; intros j.
  - rewrite distance_0_r. done.
  - induction j as [|j IHj].
    + rewrite distance_0_r. done.
    + rewrite !distance_S_S, IHj, (IHi (S j)), (IHi j).
      assert (substitution target source cost_sub (S i) (S j)
              = substitution source target cost_sub (S j) (S i)) as ->.
      { unfold substitution.
        destruct (source !! _), (target !! _); try done.
        by rewrite same_object_sym. }
      lia.
Qed.

Lemma distance_unit_bounds (target source : text) :
  ∀ i j, Z.abs (Z.of_nat i - Z.of_nat j) ≤ distance target source 1 1 1 i j
         ∧ distance target source 1 1 1 i j ≤ Z.max (Z.of_nat i) (Z.of_nat j).
Proof.
  induction i as [|i IHi]; intros j.
  - cbn. lia.
  - induction j as [|j IHj].
    + rewrite distance_0_r. lia.
    + rewrite distance_S_S. pose proof (IHi (S j)). pose proof (IHi j).
      pose proof (substitution_bounds target source 1 (S i) (S j)). lia.
Qed.

Lemma text_ext (a b : text) :
  length a = length b →
  (∀ k, (k < length a)%nat → ∃ c, a !! k = Some c ∧ b !! k = Some c ∧ (c < 256)%N) →
  a = b ∧ latin1 a.
Proof.
  intros Hlen Hget. split.
  - apply list_eq_same_length with (length a); [done..|].
    intros k x y Hk Hx Hy. destruct (Hget k Hk) as (c & Ha & Hb & _). congruence.
  - apply Forall_lookup. intros k x Hx.
    destruct (Hget k) as (c & Ha & _ & Hc); [by apply lookup_lt_Some with x|].
    congruence.
Qed.

End EditDistanceFacts.

(** ** Facts about the matcher and the URL pattern *)

Module UrlFacts.
Import Url UrlSpec.

Lemma star_ext {A} p rest (k1 k2 : string → option A) :
  (∀ s, k1 s = k2 s) → star p rest k1 = star p rest k2.
Proof.
  intros Hk. induction rest as [|c rest IH]; cbn; [done|].
  rewrite IH, Hk. done.
Qed.

Lemma star_sound {A} p (k : string → option A) a :
  ∀ rest, star p rest k = Some a →
          ∃ x rest', rest = x ++ rest' ∧ all_chars p x = true ∧ k rest' = Some a.
Proof.
  induction rest as [|c rest IH]; cbn; intros H.
  - by exists "", "".
  - destruct (p c) eqn:Hp.
    + destruct (star p rest k) as [b|] eqn:Hs.
      * injection H as ->. destruct (IH eq_refl) as (x & rest' & -> & Hx & Hk).
        exists (String c x), rest'. cbn. by rewrite Hp, Hx.
      * by exists "", (String c rest).
    + by exists "", (String c rest).
Qed.

Lemma star_greedy {A} p (k : string → option A) a rest :
  ∀ x, all_chars p x = true → star p rest k = Some a →
       star p (x ++ rest) k = Some a.
Proof.
  induction x as [|c x IH]; cbn; intros Hx H; [done|].
  apply andb_true_iff in Hx as [Hc Hx].
  change (String c x ++ rest) with (String c (x ++ rest)). cbn.
  by rewrite Hc, (IH Hx H).
Qed.

Lemma string_app_length (a b : string) :
  String.length (a ++ b) = (String.length a + String.length b)%nat.
Proof.
  induction a as [|c a IH]; [done|].
  change (String c a ++ b) with (String c (a ++ b)). cbn. by rewrite IH.
Qed.

Lemma consumed_app (x rest : string) : consumed (x ++ rest) rest = x.
Proof.
  unfold consumed. rewrite string_app_length.
  replace (String.length x + String.length rest - String.length rest)%nat
    with (String.length x) by lia.
  induction x as [|c x IH]; cbn.
  - by destruct rest.
  - change (String c x ++ rest) with (String c (x ++ rest)). cbn. by rewrite IH.
Qed.

Lemma run_ext whole r : ∀ rest groups k1 k2,
  (∀ s g, k1 s g = k2 s g) →
  run whole r rest groups k1 = run whole r rest groups k2.
Proof.
  induction r as [| | |r1 IH1 r2 IH2|r IH|p|name r IH|r IH| |];
    intros rest groups k1 k2 Hk; cbn.
  - apply Hk.
  - destruct rest as [|d rest]; [done|]. by rewrite Hk.
  - destruct rest as [|d rest]; [done|]. by rewrite Hk.
  - apply IH1. intros s g. by apply IH2.
  - by rewrite (IH _ _ k1 k2 Hk), Hk.
  - apply star_ext. intros s. apply Hk.
  - apply IH. intros s g. apply Hk.
  - by rewrite Hk.
  - by rewrite Hk.
  - destruct rest as [|c [|d rest]]; try done; by rewrite Hk.
Qed.

(** What a successful run has done: it took a prefix off [rest] and its
    continuation succeeded on what is left, with the groups as they were
    when the pattern has no named group. *)
Lemma run_sound whole r : ∀ rest groups k result,
  run whole r rest groups k = Some result →
  ∃ x rest' groups',
    rest = x ++ rest' ∧ k rest' groups' = Some result
    ∧ (capture_free r = true → groups' = groups).
Proof.
  induction r as [| | |r1 IH1 r2 IH2|r IH|p|name r IH|r IH| |];
    intros rest groups k result H; cbn in H.
  - by exists "", rest, groups.
  - destruct rest as [|d rest]; [done|]. destruct (Ascii.eqb c d); [|done].
    by exists (String d ""), rest, groups.
  - destruct rest as [|d rest]; [done|]. destruct (Ascii.eqb d newline); [done|].
    by exists (String d ""), rest, groups.
  - destruct (IH1 _ _ _ _ H) as (x1 & rest1 & g1 & -> & H1 & Hg1).
    destruct (IH2 _ _ _ _ H1) as (x2 & rest2 & g2 & -> & H2 & Hg2).
    exists (x1 ++ x2), rest2, g2. split; [|split; [done|]].
    + clear. induction x1 as [|c x1 IHx]; [done|].
      change (String c x1 ++ x2 ++ rest2) with (String c (x1 ++ x2 ++ rest2)).
      by rewrite IHx.
    + cbn. intros [Hc1 Hc2]%andb_true_iff. rewrite Hg2, Hg1; done.
  - destruct (run whole r rest groups k) as [g|] eqn:Hr.
    + injection H as ->. destruct (IH _ _ _ _ Hr) as (x & rest' & g' & ? & ? & ?).
      by exists x, rest', g'.
    + by exists "", rest, groups.
  - destruct (star_sound _ _ _ _ H) as (x & rest' & -> & _ & Hk).
    by exists x, rest', groups.
  - destruct (IH _ _ _ _ H) as (x & rest' & g' & -> & Hk & _).
    exists x, rest', (<[name := consumed (x ++ rest') rest']> g'). by split.
  - destruct (run whole r rest groups _); [done|]. by exists "", rest, groups.
  - destruct (_ =? _)%nat; [|done]. by exists "", rest, groups.
  - destruct rest as [|c [|d rest]]; try done.
    + by exists "", "", groups.
    + destruct (Ascii.eqb c newline); [|done]. by exists "", (String c ""), groups.
Qed.

Lemma string_app_assoc (a b c : string) : (a ++ b) ++ c = a ++ b ++ c.
Proof.
  induction a as [|d a IH]; [done|].
  change ((String d a ++ b) ++ c) with (String d ((a ++ b) ++ c)). by rewrite IH.
Qed.

Lemma string_app_nil_r (a : string) : a ++ "" = a.
Proof.
  induction a as [|d a IH]; [done|].
  change (String d a ++ "") with (String d (a ++ "")). by rewrite IH.
Qed.

Lemma all_chars_app p (a b : string) :
  all_chars p (a ++ b) = all_chars p a && all_chars p b.
Proof.
  induction a as [|d a IH]; [done|].
  change (String d a ++ b) with (String d (a ++ b)). cbn.
  by rewrite IH, andb_assoc.
Qed.

Lemma name_char_not_space c : name_char c = true → isspace c = false.
Proof. destruct c as [[] [] [] [] [] [] [] []]; by vm_compute. Qed.

(** *** [strip] *)

Lemma lstrip_all_space ws : all_chars isspace ws = true → lstrip ws = "".
Proof.
  induction ws as [|c ws IH]; [done|]. cbn.
  intros [-> H]%andb_true_iff. by apply IH.
Qed.

Lemma rstrip_all_space ws : all_chars isspace ws = true → rstrip ws = "".
Proof.
  induction ws as [|c ws IH]; [done|]. cbn.
  intros [-> H]%andb_true_iff. by rewrite (IH H).
Qed.

Lemma lstrip_app_space ws s : all_chars isspace ws = true → lstrip (ws ++ s) = lstrip s.
Proof.
  induction ws as [|c ws IH]; [done|]. cbn.
  intros [Hc H]%andb_true_iff.
  change (String c ws ++ s) with (String c (ws ++ s)). cbn.
  rewrite Hc. by apply IH.
Qed.

Lemma rstrip_app_space s ws : all_chars isspace ws = true → rstrip (s ++ ws) = rstrip s.
Proof.
  intros H. induction s as [|c s IH].
  - by apply rstrip_all_space.
  - change (String c s ++ ws) with (String c (s ++ ws)). cbn. by rewrite IH.
Qed.

Lemma strip_app_space s ws : all_chars isspace ws = true → strip (s ++ ws) = strip s.
Proof.
  intros H. unfold strip. induction s as [|c s IH].
  - change ("" ++ ws) with ws. by rewrite (lstrip_all_space _ H).
  - change (String c s ++ ws) with (String c (s ++ ws)). cbn [lstrip].
    destruct (isspace c); [done|].
    by apply (rstrip_app_space (String c s)).
Qed.

Lemma strip_surrounded ws1 s ws2 :
  all_chars isspace ws1 = true → all_chars isspace ws2 = true →
  strip (ws1 ++ s ++ ws2) = strip s.
Proof.
  intros H1 H2. unfold strip. rewrite (lstrip_app_space _ _ H1).
  by apply strip_app_space.
Qed.

Lemma rstrip_suffix s : ∃ ws, s = rstrip s ++ ws ∧ all_chars isspace ws = true.
Proof.
  induction s as [|c s (ws & Hs & Hws)]; [by exists ""|]. cbn.
  destruct (rstrip s) as [|d t] eqn:Ht.
  - destruct (isspace c) eqn:Hc.
    + change ("" ++ ws) with ws in Hs. subst ws.
      exists (String c s). split; [done|]. cbn. by rewrite Hc.
    + change ("" ++ ws) with ws in Hs. subst ws. by exists s.
  - exists ws. split; [|done].
    change (String c (String d t) ++ ws) with (String c (String d t ++ ws)).
    by rewrite <- Hs.
Qed.

Lemma rstrip_last_not_space s a c : rstrip s = a ++ String c "" → isspace c = false.
Proof.
  revert a. induction s as [|d s IH]; intros a; cbn.
  - by destruct a.
  - destruct (rstrip s) as [|e t] eqn:Ht.
    + destruct (isspace d) eqn:Hd; [by destruct a|].
      destruct a as [|? [|]]; [|done..]. cbn. by intros [= <-].
    + destruct a as [|a0 a]; [done|].
      change (String a0 a ++ String c "") with (String a0 (a ++ String c "")).
      intros [= <- H]. by apply (IH a).
Qed.

Lemma rstrip_app_not_space a c : isspace c = false → rstrip (a ++ String c "") = a ++ String c "".
Proof.
  intros Hc. induction a as [|d a IH].
  - change (rstrip (String c "") = String c ""). cbn. by rewrite Hc.
  - change (String d a ++ String c "") with (String d (a ++ String c "")).
    cbn [rstrip]. rewrite IH. by destruct a.
Qed.

Lemma string_last (s : string) : s ≠ "" → ∃ a c, s = a ++ String c "".
Proof.
  induction s as [|c s IH]; [done|]. intros _.
  destruct s as [|d s]; [by exists "", c|].
  destruct IH as (a & e & ->); [done|]. by exists (String c a), e.
Qed.

(** A string that neither begins nor ends with white space is left as it is. *)
Lemma strip_id c a d :
  isspace c = false → isspace d = false →
  strip (String c (a ++ String d "")) = String c (a ++ String d "").
Proof.
  intros Hc Hd. unfold strip. cbn [lstrip]. rewrite Hc.
  by apply (rstrip_app_not_space (String c a)).
Qed.

(** *** The pattern, piece by piece *)

Lemma run_named_star whole name p r rest g k :
  run whole (Named name (StarClass p) · r)%re rest g k
  = star p rest (λ rest', run whole r rest' (<[name := consumed rest rest']> g) k).
Proof. done. Qed.

Lemma star_stop {A} p c rest (k : string → option A) :
  p c = false → star p (String c rest) k = k (String c rest).
Proof. intros H. cbn. by rewrite H. Qed.

Lemma run_lit whole c r rest g k :
  run whole (Lit c · r)%re (String c rest) g k = run whole r rest g k.
Proof. cbn. by rewrite Ascii.eqb_refl. Qed.

Lemma run_lit_inv whole c r rest g k result :
  run whole (Lit c · r)%re rest g k = Some result →
  ∃ rest', rest = String c rest' ∧ run whole r rest' g k = Some result.
Proof.
  cbn. destruct rest as [|d rest]; [done|].
  destruct (Ascii.eqb c d) eqn:E; [|done].
  apply Ascii.eqb_eq in E as <-. by exists rest.
Qed.

Lemma run_bol whole r g k :
  run whole (Bol · r)%re whole g k = run whole r whole g k.
Proof. cbn. by rewrite Nat.eqb_refl. Qed.

Lemma run_seq_sound whole r1 r2 rest g k result :
  capture_free r1 = true →
  run whole (r1 · r2)%re rest g k = Some result →
  ∃ x rest', rest = x ++ rest' ∧ run whole r2 rest' g k = Some result.
Proof.
  intros Hfree H. cbn [run] in H.
  destruct (run_sound _ _ _ _ _ _ H) as (x & rest' & g' & -> & Hk & Hg).
  rewrite (Hg Hfree) in Hk. by exists x, rest'.
Qed.

(** The groups of a match of the part from [(?P<dev>] on. *)
Lemma run_groups whole dev repo g :
  all_chars name_char dev = true → all_chars name_char repo = true →
  run whole
    (Named "dev" (StarClass name_char) · Lit "/" · Named "repo" (StarClass name_char)
     · NotAhead (literal ".git") · Opt (Lit "/") · Eol)%re
    (dev ++ "/" ++ repo) g (λ _ groups, Some groups)
  = Some (<["repo" := repo]> (<["dev" := dev]> g)).
Proof.
  intros Hdev Hrepo. rewrite run_named_star.
  apply (star_greedy _ _ _ _ _ Hdev).
  change ("/" ++ repo) with (String "/" repo).
  rewrite star_stop by done.
  rewrite consumed_app.
  rewrite run_lit, run_named_star.
  rewrite <- (string_app_nil_r repo) at 1.
  apply (star_greedy _ _ _ _ _ Hrepo).
  cbn. rewrite <- (string_app_nil_r repo) at 1. by rewrite consumed_app.
Qed.

Lemma run_https_prefix whole tail rest g k result :
  run whole tail rest g k = Some result →
  run whole
    (Opt (literal "http" · Opt (Lit "s") · literal "://")
     · Opt (literal "www" · AnyChar)
     · literal "github" · AnyChar · literal "com/" · tail)%re
    ("https://github.com/" ++ rest) g k = Some result.
Proof.
  intros H.
  change ("https://github.com/" ++ rest)
    with (String "h" (String "t" (String "t" (String "p" (String "s" (String ":"
         (String "/" (String "/" (String "g" (String "i" (String "t" (String "h"
         (String "u" (String "b" (String "." (String "c" (String "o" (String "m"
         (String "/" rest))))))))))))))))))).
  cbn. by rewrite H.
Qed.

Lemma match_repo_url dev repo :
  all_chars name_char dev = true → all_chars name_char repo = true →
  re_match _URL_RE ("https://github.com/" ++ dev ++ "/" ++ repo)
  = Some (<["repo" := repo]> (<["dev" := dev]> ∅)).
Proof.
  intros Hdev Hrepo. unfold re_match, _URL_RE. rewrite run_bol.
  apply run_https_prefix. by apply run_groups.
Qed.

Lemma strip_repo_url dev repo :
  all_chars name_char repo = true →
  strip ("https://github.com/" ++ dev ++ "/" ++ repo)
  = "https://github.com/" ++ dev ++ "/" ++ repo.
Proof.
  intros Hrepo.
  assert (∃ a d, dev ++ "/" ++ repo = a ++ String d "" ∧ isspace d = false)
    as (a & d & Ha & Hd).
  { destruct repo as [|c repo].
    - by exists dev, "/"%char.
    - destruct (string_last (String c repo)) as (a & d & Ha); [done|].
      exists (dev ++ "/" ++ a), d. rewrite Ha in Hrepo |- *.
      rewrite all_chars_app in Hrepo. apply andb_true_iff in Hrepo as [_ Hd].
      cbn in Hd. rewrite andb_true_r in Hd.
      split; [|by apply name_char_not_space].
      by rewrite !string_app_assoc. }
  rewrite Ha.
  change ("https://github.com/" ++ a ++ String d "")
    with (String "h" (("ttps://github.com/" ++ a) ++ String d "")).
  by apply strip_id.
Qed.

(** What is left after the group [repo] when the rest of the pattern
    matches, and that the rest of the pattern records nothing. *)
Lemma run_end_sound whole post g result :
  run whole (NotAhead (literal ".git") · Opt (Lit "/") · Eol)%re post g
    (λ _ groups, Some groups) = Some result →
  result = g
  ∧ (post = "" ∨ post = "/" ∨ post = String newline "" ∨ post = String "/" (String newline "")).
Proof.
  intros H. cbn [run] in H.
  destruct (run whole (literal ".git") post g _); [done|].
  destruct post as [|c1 [|c2 [|c3 post]]]; cbn -[Ascii.eqb] in H.
  - injection H as <-. auto.
  - destruct (Ascii.eqb_spec "/" c1) as [<-|_].
    + injection H as <-. auto.
    + destruct (Ascii.eqb_spec c1 newline) as [->|_]; [|done].
      injection H as <-. auto.
  - destruct (Ascii.eqb_spec "/" c1) as [<-|_]; [|done].
    destruct (Ascii.eqb_spec c2 newline) as [->|_]; [|done].
    injection H as <-. auto.
  - by destruct (Ascii.eqb "/" c1).
Qed.

(** The groups of a match and where they lie in the string. *)
Lemma match_sound s m :
  re_match _URL_RE s = Some m →
  ∃ pre dev repo post,
    s = pre ++ dev ++ "/" ++ repo ++ post
    ∧ m = <["repo" := repo]> (<["dev" := dev]> ∅)
    ∧ all_chars name_char dev = true ∧ all_chars name_char repo = true
    ∧ (post = "" ∨ post = "/" ∨ post = String newline ""
       ∨ post = String "/" (String newline "")).
Proof.
  unfold re_match, _URL_RE. generalize s at 1. intros whole H.
  apply run_seq_sound in H as (x1 & s1 & -> & H); [|done].
  apply run_seq_sound in H as (x2 & s2 & -> & H); [|done].
  apply run_seq_sound in H as (x3 & s3 & -> & H); [|done].
  apply run_seq_sound in H as (x4 & s4 & -> & H); [|done].
  apply run_seq_sound in H as (x5 & s5 & -> & H); [|done].
  apply run_seq_sound in H as (x6 & s6 & -> & H); [|done].
  rewrite run_named_star in H.
  apply star_sound in H as (dev & s7 & -> & Hdev & H).
  rewrite consumed_app in H.
  apply run_lit_inv in H as (s8 & -> & H).
  rewrite run_named_star in H.
  apply star_sound in H as (repo & post & -> & Hrepo & H).
  rewrite consumed_app in H.
  apply run_end_sound in H as [-> Hpost].
  exists (x1 ++ x2 ++ x3 ++ x4 ++ x5 ++ x6), dev, repo, post.
  split; [|done]. by rewrite !string_app_assoc.
Qed.

(** [(?!\.git)] where it stands rejects nothing that what follows it
    would accept. *)
Lemma lookahead_dead whole s g k :
  run whole (NotAhead (literal ".git") · Opt (Lit "/") · Eol)%re s g k
  = run whole (Opt (Lit "/") · Eol)%re s g k.
Proof.
  cbn [run].
  destruct (run whole (literal ".git") s g _) eqn:E; [|done].
  destruct s as [|c1 [|c2 s]]; cbn -[Ascii.eqb] in E |- *;
    [done|by destruct (Ascii.eqb "." c1)|].
  destruct (Ascii.eqb_spec "." c1) as [<-|]; [|done]. done.
Qed.

Lemma re_match_without_lookahead s :
  re_match _URL_RE s = re_match _URL_RE_without_lookahead s.
Proof.
  unfold re_match, _URL_RE, _URL_RE_without_lookahead.
  generalize s at 1 3. intros whole.
  repeat match goal with
  | |- run ?w (Seq ?a ?b) ?rest ?g ?k = run ?w (Seq ?a ?b') ?rest ?g ?k' =>
      change (run w a rest g (λ r' g', run w b r' g' k)
              = run w a rest g (λ r' g', run w b' r' g' k'));
      apply run_ext; intros ? ?
  end.
  apply lookahead_dead.
Qed.

End UrlFacts.

(** ** Facts about what the batch scheduler returns *)

Module ProcessorContentFacts.
Import Processor ProcessorSpec ProcessorFacts ProcessorContent.
Local Open Scope list_scope.
Local Open Scope nat_scope.

Section Batch.

Variables item result : Type.
Variable classify_item : item → result.

Abbreviation process := (Processor.process item).
Abbreviation sched := (Processor.sched item result).
Abbreviation step := (step classify_item).
Abbreviation run := (run classify_item).
Abbreviation in_hand := (in_hand classify_item).
Abbreviation pending := (pending classify_item).
Abbreviation in_order := (in_order classify_item).

Lemma in_hand_insert (ps : list process) i p q :
  ps !! i = Some p →
  flat_map in_hand (<[i := q]> ps) ++ in_hand p ≡ₚ in_hand q ++ flat_map in_hand ps.
Proof.
  revert i. induction ps as [|a ps IH]; intros [|i] Hi; try done.
  - cbn in Hi. injection Hi as ->. cbn.
    rewrite <- (assoc_L (++)). f_equiv. apply Permutation_app_comm.
  - cbn in Hi. change (<[S i := q]> (a :: ps)) with (a :: <[i := q]> ps).
    cbn [flat_map]. rewrite <- (assoc_L (++)), (IH i Hi).
    rewrite !(assoc_L (++)). by rewrite (Permutation_app_comm (in_hand a)).
Qed.

(** No step adds to what is there or still to come; a worker that dies
    takes what it holds with it. *)
Lemma step_pending a (s s' : sched) : step a s = Some s' → pending s' ⊆+ pending s.
Proof.
  intros Hstep. unfold pending. destruct a as [i [| | |c]| | |]; cbn in Hstep.
  - destruct (processes s !! i) as [[| |]|] eqn:Hi; try done.
    destruct (queue_input s) as [|data rest] eqn:Hq; [done|].
    injection Hstep as <-. cbn.
    pose proof (in_hand_insert _ i _ (Working data) Hi) as H. cbn in H.
    rewrite app_nil_r in H. rewrite H. cbn.
    apply Permutation_submseteq. do 2 f_equiv. apply Permutation_middle.
  - destruct (processes s !! i) as [[| |]|] eqn:Hi; try done.
    destruct (queue_input s) as [|data rest] eqn:Hq; [|done].
    injection Hstep as <-. cbn.
    pose proof (in_hand_insert _ i _ (Exited 0) Hi) as H. cbn in H.
    rewrite app_nil_r in H. by rewrite H, Hq.
  - destruct (processes s !! i) as [[|data|]|] eqn:Hi; try done.
    injection Hstep as <-. cbn.
    pose proof (in_hand_insert _ i _ Idle Hi) as H. cbn in H.
    rewrite <- H. apply Permutation_submseteq. f_equiv.
    rewrite <- !(assoc_L (++)). f_equiv.
    rewrite !(assoc_L (++)). f_equiv. apply Permutation_app_comm.
  - destruct (processes s !! i) as [p|] eqn:Hi; [|done].
    destruct (is_alive p && negb (c =? 0)%Z); [|done].
    injection Hstep as <-. cbn.
    pose proof (in_hand_insert _ i _ (Exited c) Hi) as H. cbn in H.
    rewrite <- H. do 2 (apply submseteq_app; [done|]).
    apply submseteq_app; [|done]. by apply submseteq_inserts_r.
  - destruct (at_phase s); try done;
      destruct (queue_output s) as [|r rest] eqn:Hq; try done;
      injection Hstep as <-; cbn; by rewrite <- !(assoc_L (++)).
  - destruct (at_phase s); try done.
    destruct (forallb _ _); [|done]. by injection Hstep as <-.
  - destruct (at_phase s); try done.
    destruct (queue_output s) eqn:Hq; [|done]. injection Hstep as <-. cbn. by rewrite ?Hq.
Qed.

Lemma run_pending schedule : ∀ s s' : sched,
  run schedule s = Some s' → pending s' ⊆+ pending s.
Proof.
  induction schedule as [|a schedule IH]; intros s s' Hrun; cbn in Hrun.
  - by injection Hrun as <-.
  - destruct (step a s) as [s1|] eqn:Hstep; [|done].
    etrans; [by apply IH|]. by apply step_pending with a.
Qed.

Lemma pending_start cfg cpu_count (input : list item) :
  pending (start cfg cpu_count input) = map classify_item input.
Proof.
  unfold pending. cbn.
  assert (∀ n, flat_map in_hand (replicate n Idle) = []) as ->; [|done].
  induction n as [|n IH]; [done|]. by cbn.
Qed.

Lemma results_pending (s : sched) : results s ⊆+ pending s.
Proof. unfold pending. by apply submseteq_inserts_r. Qed.

(** *** One worker *)

Lemma in_order_start cfg cpu_count (input : list item) :
  worker cfg cpu_count = 1%Z → in_order (start cfg cpu_count input).
Proof.
  intros Hw. exists Idle. split.
  - cbn. by rewrite Hw.
  - by rewrite pending_start.
Qed.

Lemma in_order_single (s : sched) p :
  processes s = [p] →
  in_order s ↔
  match p with
  | Exited _ => results s ++ queue_output s `prefix_of` map classify_item (input s)
  | _ => results s ++ queue_output s ++ in_hand p ++ map classify_item (queue_input s)
         = map classify_item (input s)
  end.
Proof.
  intros Hps. unfold in_order, pending. rewrite Hps. cbn [flat_map].
  rewrite app_nil_r. split.
  - intros (q & [= <-] & Hq). done.
  - intros Hp. by exists p.
Qed.

Lemma step_in_order a (s s' : sched) : in_order s → step a s = Some s' → in_order s'.
Proof.
  intros Hin Hstep. destruct (Hin) as (p & Hps & _).
  apply (in_order_single s p Hps) in Hin as Hp.
  destruct a as [i [| | |c]| | |]; cbn in Hstep; rewrite ?Hps in Hstep.
  - destruct i as [|i]; [|by destruct i]. cbn in Hstep.
    destruct p; try done. destruct (queue_input s) as [|data rest] eqn:Hq; [done|].
    injection Hstep as <-. by apply (in_order_single _ (Working data)).
  - destruct i as [|i]; [|by destruct i]. cbn in Hstep.
    destruct p; try done. destruct (queue_input s) as [|data rest] eqn:Hq; [|done].
    injection Hstep as <-. apply (in_order_single _ (Exited 0)); cbn; [by rewrite Hps|].
    cbn in Hp. rewrite app_nil_r in Hp. by rewrite Hp.
  - destruct i as [|i]; [|by destruct i]. cbn in Hstep.
    destruct p as [|data|]; try done.
    injection Hstep as <-. apply (in_order_single _ Idle); cbn; [done|].
    cbn in Hp. by rewrite <- (assoc_L (++)).
  - destruct i as [|i]; [|by destruct i]. cbn in Hstep.
    destruct (is_alive p && negb (c =? 0)%Z) eqn:Ha; [|done].
    injection Hstep as <-. apply (in_order_single _ (Exited c)); cbn; [by rewrite Hps|].
    destruct p as [|data|]; try done.
    + rewrite <- Hp. rewrite (assoc_L (++)). by apply prefix_app_r.
    + rewrite <- Hp. rewrite (assoc_L (++)). by apply prefix_app_r.
  - assert (∃ r rest, queue_output s = r :: rest
              ∧ processes s' = processes s ∧ input s' = input s
              ∧ queue_input s' = queue_input s
              ∧ results s' = results s ++ [r] ∧ queue_output s' = rest)
      as (r & rest & Hq & Hps' & Hi' & Hqi' & Hr' & Hq').
    { destruct (at_phase s); try done;
        destruct (queue_output s) as [|r rest] eqn:Hq; try done;
        injection Hstep as <-; by exists r, rest. }
    rewrite Hps in Hps'. apply (in_order_single s' p Hps').
    rewrite Hi', Hqi', Hr', Hq'. rewrite Hq in Hp.
    rewrite <- !(assoc_L (++)). done.
  - destruct (at_phase s); try done.
    destruct (forallb _ _); [|done]. injection Hstep as <-.
    by apply (in_order_single _ p).
  - destruct (at_phase s); try done.
    destruct (queue_output s) eqn:Hq; [|done]. injection Hstep as <-.
    apply (in_order_single _ p); [by cbn|]. cbn. by rewrite ?Hq.
Qed.

Lemma run_in_order schedule : ∀ s s' : sched,
  in_order s → run schedule s = Some s' → in_order s'.
Proof.
  induction schedule as [|a schedule IH]; intros s s' Hin Hrun; cbn in Hrun.
  - by injection Hrun as <-.
  - destruct (step a s) as [s1|] eqn:Hstep; [|done].
    apply (IH s1); [|done]. by apply step_in_order with a s.
Qed.

(** With one worker, what [batch] has collected when it returns. *)
Lemma returned_in_order (s : sched) :
  in_order s → inv s → at_phase s = Returned →
  results s `prefix_of` map classify_item (input s).
Proof.
  intros (p & Hps & Hp) Hinv Hph.
  pose proof (inv_returned s Hinv Hph) as Hq.
  assert (Hd : all_dead (processes s)) by (apply Hinv; by rewrite Hph).
  rewrite Hps in Hd. apply Forall_cons in Hd as [Hd _].
  destruct p; try done. by rewrite Hq, app_nil_r in Hp.
Qed.

End Batch.
End ProcessorContentFacts.

(** ** Facts about the queries of [Github] *)

Module GithubQueriesFacts.
Import UrlSpec UrlFacts GithubQueriesSpec.

Lemma replace_without old new s :
  all_chars (is_not old) new = true →
  all_chars (is_not old) (replace old new s) = true.
Proof.
  intros Hnew. induction s as [|c s IH]; [done|]. cbn [replace].
  destruct (Ascii.eqb c old) eqn:Hc.
  - by rewrite all_chars_app, Hnew, IH.
  - cbn. unfold is_not at 1. by rewrite Hc, IH.
Qed.

Lemma content_key_ne_metadata path : content_key path ≠ "METADATA".
Proof. unfold content_key. by cbn. Qed.

Lemma py_in_raises key v e : py_in key v = Raise e → e = TypeError.
Proof. destruct v; cbn; congruence. Qed.

Lemma py_getitem_raises v key e :
  py_getitem v key = Raise e → e = TypeError ∨ e = KeyError.
Proof.
  destruct v; cbn; try (intros [= <-]; by left).
  destruct (_ !! _); [done|]. intros [= <-]. by right.
Qed.

(** A payload just recorded is served. *)
Lemma served_recorded cfg today k url data s :
  force_cache_update cfg = false →
  0 < maximum_cache_age cfg →
  k ≠ "METADATA" →
  served cfg today
    (recorded today k (_path (self s) ++ k) (FData data) (asked k url s)) k
  = Some (Val data).
Proof.
  intros Hf Hmax Hk. apply (served_data _ _ _ _ today).
  - cbn. rewrite lookup_insert_ne by (apply not_eq_sym, data_ne_metadata, Hk).
    apply lookup_insert_eq.
  - cbn. rewrite lookup_insert_ne by (apply not_eq_sym, marker_ne_metadata).
    rewrite lookup_insert_ne by (apply not_eq_sym, marker_ne_data).
    apply lookup_delete_eq.
  - rewrite journal_recorded. apply lookup_insert_eq.
  - done.
  - lia.
Qed.

(** A payload [_get_data] has returned is served to the next call for
    the key, whatever its url. *)
Lemma get_data_val_served cfg today net k url s data :
  force_cache_update cfg = false →
  0 < maximum_cache_age cfg →
  k ≠ "METADATA" →
  fst (_get_data cfg today net k url s) = Val data →
  served cfg today (snd (_get_data cfg today net k url s)) k = Some (Val data).
Proof.
  intros Hf Hmax Hk. rewrite get_data_eq.
  destruct (served cfg today s k) as [o|] eqn:Hs; cbn [fst snd].
  - intros ->. by rewrite served_refreshed.
  - rewrite get_data_update_eq.
    destruct (classify net) as [data'| | | |e]; cbn [fst snd]; try done.
    intros [= ->]. by apply served_recorded.
Qed.

Lemma get_data_served cfg today net k url s o :
  served cfg today s k = Some o →
  _get_data cfg today net k url s = (o, refreshed s).
Proof. intros Hs. by rewrite get_data_eq, Hs. Qed.

(** A call that is not served and whose fetch fails raises
    [GithubError] and has sent the request. *)
Lemma get_data_failure cfg today net k url s :
  served cfg today s k = None →
  classify net = ConnectionFailure ∨ classify net = RateLimited
    ∨ classify net = DefinitiveError →
  fst (_get_data cfg today net k url s) = Raise GithubError
  ∧ requests (snd (_get_data cfg today net k url s))
    = the_request (self s) url :: requests s.
Proof.
  intros Hs Hc. split.
  - rewrite get_data_eq, Hs, get_data_update_eq.
    by destruct Hc as [->|[->| ->]].
  - by rewrite get_data_requests, Hs.
Qed.

Lemma get_repository_content_eq cfg today net path s :
  get_repository_content cfg today net path s
  = _get_data cfg today net (content_key path)
      ("https://api.github.com/repos/" ++ _dev (self s) ++ "/" ++ _repo (self s)
       ++ "/contents/" ++ path) s.
Proof. done. Qed.

Lemma repository_exists_github_error cfg today net s s1 :
  _get_data cfg today net "repository_data"
    ("https://api.github.com/repos/" ++ _dev (self s) ++ "/" ++ _repo (self s)) s
  = (Raise GithubError, s1) →
  repository_exists cfg today net s = (Val false, s1).
Proof.
  intros H. unfold repository_exists, catch, bind at 1, get_repository_data,
    bind at 1, get_self.
  by rewrite H.
Qed.

Lemma get_readme_raises cfg today b64decode net s e s1 :
  _get_data cfg today net "readme"
    ("https://api.github.com/repos/" ++ _dev (self s) ++ "/" ++ _repo (self s)
     ++ "/readme") s
  = (Raise e, s1) →
  get_readme cfg today b64decode net s = (Raise e, s1).
Proof.
  intros H. unfold get_readme, bind at 1, get_self, bind at 1. by rewrite H.
Qed.

Lemma get_file_raises cfg today b64decode net file s e s1 :
  _get_data cfg today net (content_key file)
    ("https://api.github.com/repos/" ++ _dev (self s) ++ "/" ++ _repo (self s)
     ++ "/contents/" ++ file) s
  = (Raise e, s1) →
  get_file cfg today b64decode net file s = (Raise e, s1).
Proof.
  intros H. unfold get_file, bind at 1, get_repository_content, bind at 1, get_self.
  by rewrite H.
Qed.

End GithubQueriesFacts.

(** ** Facts about the validation *)

Module ValidateFacts.
Import Validate ValidateSpec.
Local Open Scope list_scope.
Local Open Scope nat_scope.

Lemma Github_eq_key (a b : entry) :
  Github_eq (fst a) (fst b) = true ↔ repo_key a = repo_key b.
Proof.
  unfold Github_eq, repo_key. rewrite andb_true_iff, !String.eqb_eq.
  split; [by intros [-> ->]|by intros [= -> ->]].
Qed.

Lemma fold_left_ext {A B} (f g : A → B → A) (l : list B) :
  (∀ a b, f a b = g a b) → ∀ a, fold_left f l a = fold_left g l a.
Proof.
  intros H. induction l as [|b l IH]; intros a; [done|]. cbn. by rewrite H, IH.
Qed.

Lemma counters_eq others entries c :
  counters others entries c = fold_left (count_step others c) entries (0, 0).
Proof. unfold counters. apply fold_left_ext. by intros [count tp] data. Qed.

Lemma truth_agrees_eq l data c : truth_agrees l data c = first_agrees l data c.
Proof. induction l as [|t l IH]; [done|]. cbn. by rewrite IH. Qed.

Lemma results_agree_eq l data c : results_agree l data c = first_agrees l data c.
Proof. induction l as [|t l IH]; [done|]. cbn. by rewrite IH. Qed.

Lemma calculate_precision_eq truth results c :
  calculate_precision truth results c
  = let '(count, tp) := counters truth results c in ratio count tp.
Proof.
  unfold calculate_precision. rewrite counters_eq.
  rewrite (fold_left_ext _ (count_step truth c)).
  2:{ intros [count tp] data. cbn. by rewrite truth_agrees_eq. }
  by destruct (fold_left _ _ _).
Qed.

Lemma calculate_recall_eq truth results c :
  calculate_recall truth results c
  = let '(count, tp) := counters results truth c in ratio count tp.
Proof.
  unfold calculate_recall. rewrite counters_eq.
  rewrite (fold_left_ext _ (count_step results c)).
  2:{ intros [count tp] data. cbn. by rewrite results_agree_eq. }
  by destruct (fold_left _ _ _).
Qed.

Lemma count_step_le others c entries : ∀ count tp,
  tp ≤ count →
  snd (fold_left (count_step others c) entries (count, tp))
  ≤ fst (fold_left (count_step others c) entries (count, tp)).
Proof.
  induction entries as [|data entries IH]; intros count tp Hle; [done|].
  cbn [fold_left count_step].
  destruct (String.eqb (snd data) c); [|by apply IH].
  destruct (first_agrees others data c); apply IH; lia.
Qed.

Lemma count_step_agree others c entries :
  (∀ data, data ∈ entries → snd data = c → first_agrees others data c = true) →
  ∀ n, ∃ m, fold_left (count_step others c) entries (n, n) = (m, m)
            ∧ n ≤ m ∧ (c ∈ map snd entries → n < m).
Proof.
  induction entries as [|data entries IH]; intros Hall n.
  - exists n. repeat split; [done|]. by intros ?%elem_of_nil.
  - cbn [fold_left count_step].
    assert (Hrest : ∀ d, d ∈ entries → snd d = c → first_agrees others d c = true).
    { intros d Hd. apply Hall. by apply elem_of_cons; right. }
    destruct (String.eqb_spec (snd data) c) as [Hc|Hc].
    + rewrite (Hall data); [|by apply elem_of_cons; left|done].
      destruct (IH Hrest (S n)) as (m & Hm & Hle & _).
      exists m. split; [done|]. split; lia.
    + destruct (IH Hrest n) as (m & Hm & Hle & Hlt).
      exists m. split; [done|]. split; [done|].
      cbn. intros [?|?]%elem_of_cons; [done|by apply Hlt].
Qed.

(** With one entry for each repository, the first entry for the
    repository of an entry is the entry itself. *)
Lemma first_agrees_unique others data c :
  NoDup (map repo_key others) → data ∈ others →
  first_agrees others data c = String.eqb (snd data) c.
Proof.
  induction others as [|t rest IH]; intros Hnd Hin; [by apply elem_of_nil in Hin|].
  cbn in Hnd. apply NoDup_cons in Hnd as [Ht Hnd]. cbn.
  destruct (Github_eq (fst t) (fst data)) eqn:Heq.
  - apply Github_eq_key in Heq.
    apply elem_of_cons in Hin as [->|Hin]; [done|].
    exfalso. apply Ht. rewrite Heq. apply list_elem_of_In, in_map.
    by apply list_elem_of_In.
  - apply elem_of_cons in Hin as [->|Hin]; [|by apply IH].
    assert (Github_eq (fst t) (fst t) = true) as H by by apply Github_eq_key.
    by rewrite H in Heq.
Qed.

Lemma ratio_bounds count tp : tp ≤ count → (0 <= ratio count tp <= 1)%Q.
Proof.
  intros Hle. unfold ratio. destruct (Nat.eqb_spec count 0) as [->|Hc]; cbn; [lra|].
  assert (0 < inject_Z (Z.of_nat count))%Q as Hpos.
  { unfold Qlt. cbn. lia. }
  split.
  - apply Qle_shift_div_l; [done|]. rewrite Qmult_0_l. unfold Qle. cbn. lia.
  - apply Qle_shift_div_r; [done|]. rewrite Qmult_1_l. unfold Qle. cbn. lia.
Qed.

Lemma ratio_full m : 0 < m → (ratio m m == 1)%Q.
Proof.
  intros Hm. unfold ratio. destruct (Nat.eqb_spec m 0) as [->|Hc]; cbn; [lia|].
  apply Qmult_inv_r. unfold Qeq. cbn. lia.
Qed.

(** *** The folds *)

Lemma concat_alter_app {A} (datasets : list (list A)) i d :
  i < length datasets →
  concat (alter (λ fold, fold ++ [d]) i datasets) ≡ₚ d :: concat datasets.
Proof.
  revert i. induction datasets as [|fold datasets IH]; intros [|i] Hi; cbn in *; try lia.
  - rewrite <- (assoc_L (++)). cbn.
    by rewrite <- Permutation_middle.
  - rewrite IH by lia. by rewrite Permutation_middle.
Qed.

Lemma assign_concat {A} (randint : nat → nat) (data : list A) :
  ∀ n datasets,
    (∀ i, randint i < length datasets) →
    length (assign randint n data datasets) = length datasets
    ∧ concat (assign randint n data datasets) ≡ₚ concat datasets ++ data.
Proof.
  induction data as [|d data IH]; intros n datasets Hr; cbn [assign].
  - by rewrite app_nil_r.
  - destruct (IH (S n) (alter (λ fold, fold ++ [d]) (randint n) datasets)) as [Hlen Hperm].
    { intros i. rewrite length_alter. apply Hr. }
    rewrite length_alter in Hlen. split; [done|].
    rewrite Hperm, concat_alter_app by apply Hr.
    cbn. apply Permutation_middle.
Qed.

Lemma concat_replicate_nil {A} k : concat (replicate k (@nil A)) = [].
Proof. induction k as [|k IH]; [done|]. by cbn. Qed.

Lemma run_sets_spec {A} (run : nat) (datasets : list (list A)) :
  run < length datasets →
  let '(learn, truth) := run_sets (length datasets) run datasets in
  truth = default [] (datasets !! run) ∧ learn ++ truth ≡ₚ concat datasets.
Proof.
  intros Hrun. unfold run_sets.
  pose (P := λ (j : nat) (acc : list A * list A),
    (if decide (run < j) then snd acc = default [] (datasets !! run) else snd acc = [])
    ∧ fst acc ++ snd acc ≡ₚ concat (take j datasets)).
  assert (H : P (0 + length datasets)
                (fold_left (sets_step run datasets) (seq 0 (length datasets)) ([], []))).
  { apply EditDistanceFacts.fold_seq_inv.
    - unfold P. cbn. rewrite take_0. by case_decide; [lia|].
    - intros j [learn truth] Hj [Ht Hp]. unfold P, sets_step. cbn [fst snd] in *.
      destruct (lookup_lt_is_Some_2 datasets j) as [fold Hfold]; [lia|].
      rewrite (take_S_r _ _ _ Hfold), concat_app. cbn [concat]. rewrite app_nil_r.
      rewrite Hfold. cbn [default].
      destruct (Nat.eqb_spec j run) as [->|Hne].
      + case_decide; [lia|]. subst truth. rewrite app_nil_r in Hp.
        case_decide; [|lia]. rewrite Hfold. cbn [fst snd default].
        split; [done|]. by apply Permutation_app.
      + cbn [fst snd]. split.
        * repeat case_decide; try done; lia.
        * rewrite <- Hp. rewrite <- !(assoc_L (++)).
          apply Permutation_app; [done|]. apply Permutation_app_comm. }
  change (0 + length datasets) with (length datasets) in H.
  rewrite (fold_left_ext _ (sets_step run datasets)) by (by intros [learn truth] i).
  destruct (fold_left _ _ _) as [learn truth] eqn:Hfold.
  destruct H as [Ht Hp]. cbn [fst snd] in *.
  case_decide; [|lia]. split; [done|]. by rewrite firstn_all in Hp.
Qed.

End ValidateFacts.

(** ** Facts about reading the input *)

Module ProcessorInputFacts.
Import Url UrlSpec UrlFacts UtilityClasses ProcessorInput ProcessorInputSpec.
Local Open Scope list_scope.

Lemma fold_left_snoc {A B} (f : B → list A) (l : list B) : ∀ acc,
  fold_left (λ acc x, acc ++ f x) l acc = acc ++ flat_map f l.
Proof.
  induction l as [|x l IH]; intros acc; cbn; [by rewrite app_nil_r|].
  by rewrite IH, (assoc_L (++)).
Qed.

Lemma fold_left_ext_in {A B} (f g : A → B → A) (l : list B) :
  (∀ a b, f a b = g a b) → ∀ a, fold_left f l a = fold_left g l a.
Proof.
  intros H. induction l as [|b l IH]; intros a; [done|]. cbn. by rewrite H, IH.
Qed.

Section Input.

Variable cfg : Config.
Variable secret : GithubSecret.
Variable disk : gmap string node.

Lemma read_line_parsed data line :
  read_line cfg secret data line = data ++ parsed cfg secret line.
Proof.
  unfold parsed, read_line. cbn zeta.
  destruct (String.eqb _ _); [by rewrite app_nil_r|].
  destruct (negb _); [by rewrite app_nil_r|done].
Qed.

Lemma read_lines lines :
  fold_left (read_line cfg secret) lines [] = flat_map (parsed cfg secret) lines.
Proof.
  rewrite (fold_left_ext_in _ (λ acc x, acc ++ parsed cfg secret x))
    by apply read_line_parsed.
  by rewrite fold_left_snoc.
Qed.

Lemma file_to_input_lines path lines intact :
  disk !! path = Some (TextFile lines intact) →
  file_to_input cfg secret disk path = flat_map (parsed cfg secret) lines.
Proof.
  intros H. unfold file_to_input, exists_path. rewrite H.
  rewrite bool_decide_eq_true_2 by eauto. cbn. apply read_lines.
Qed.

Lemma file_to_input_inv path g :
  g ∈ file_to_input cfg secret disk path →
  ∃ lines intact line,
    disk !! path = Some (TextFile lines intact) ∧ line ∈ lines
    ∧ g ∈ parsed cfg secret line.
Proof.
  unfold file_to_input. destruct (negb _); [by intros ?%elem_of_nil|].
  destruct (disk !! path) as [[|lines intact]|] eqn:H; try by intros ?%elem_of_nil.
  rewrite read_lines. intros Hin.
  apply list_elem_of_In, in_flat_map in Hin as (line & Hl & Hg).
  exists lines, intact, line. by rewrite !list_elem_of_In.
Qed.

(** What a line has to be for an object to come of it. *)
Lemma parsed_inv line g :
  g ∈ parsed cfg secret line →
  validate_url (strip line) = true
  ∧ g = Github_init cfg secret (fst (get_dev_and_repo (strip line)))
          (snd (get_dev_and_repo (strip line))).
Proof.
  unfold parsed, read_line. cbn zeta.
  destruct (String.eqb _ _); [by intros ?%elem_of_nil|].
  destruct (validate_url (strip line)); cbn; [|by intros ?%elem_of_nil].
  by intros ->%list_elem_of_singleton.
Qed.

(** The line of a well-named repository gives the repository. *)
Lemma parsed_url_line g :
  well_named g →
  parsed cfg secret (url_line g) = [Github_init cfg secret (_dev g) (_repo g)].
Proof.
  intros [Hdev Hrepo].
  assert (Hstrip : strip (url_line g) = get_repo_url g).
  { unfold url_line. rewrite strip_app_space by done. by apply strip_repo_url. }
  unfold parsed, read_line. cbn zeta. rewrite Hstrip.
  unfold validate_url, get_dev_and_repo, get_repo_url.
  rewrite (strip_repo_url _ _ Hrepo), (match_repo_url _ _ Hdev Hrepo).
  rewrite bool_decide_eq_true_2 by eauto. cbn.
  unfold group. rewrite lookup_insert_ne by done. by rewrite !lookup_insert_eq.
Qed.

Lemma parsed_well_named line g : g ∈ parsed cfg secret line → well_named g.
Proof.
  intros [Hvalid ->]%parsed_inv. unfold validate_url in Hvalid.
  apply bool_decide_eq_true in Hvalid as [m Hm].
  destruct (match_sound _ _ Hm) as (pre & dev & repo & post & _ & -> & Hdev & Hrepo & _).
  unfold get_dev_and_repo. rewrite Hm. unfold group.
  rewrite lookup_insert_ne by done. rewrite !lookup_insert_eq. by split.
Qed.

Lemma dir_to_learning_eq path :
  dir_to_learning cfg secret disk path =
  if negb (isdir disk path) then []
  else if existsb (λ file, negb (exists_path disk (path +:+ "/" +:+ file))) get_classes
       then []
       else flat_map (λ file, map (λ data, (data, file))
                                (file_to_input cfg secret disk (path +:+ "/" +:+ file)))
              get_classes.
Proof.
  unfold dir_to_learning. destruct (negb _); [done|]. cbn zeta.
  destruct (existsb _ _); [done|].
  rewrite <- (app_nil_l (flat_map _ _)). rewrite <- fold_left_snoc.
  apply fold_left_ext_in. intros input file.
  rewrite (fold_left_snoc (λ data, [(data, file)])). f_equal.
Qed.

End Input.
End ProcessorInputFacts.

(** ** Properties of the cache *)

(** An empty cache and a maximum age of 1000 years: the first call for
    the repository metadata sends one request and writes the data file
    and METADATA; the second, on the same day, sends none and returns the
    same payload, whatever the remote would say then. *)
Example repository_data_fetched_once :
  let g := Github_init test_config anonymous "Top-Ranger" "kana-keyboard" in
  let s := {| self := g; fs := ∅; requests := [] |} in
  let first := get_repository_data test_config 736000 ok_response s in
  let second := get_repository_data test_config 736000 other_response (snd first) in
  fst first = Val (JDict {[ "name" := JStr "kana-keyboard" ]})
  ∧ requests (snd first) = [the_request g kana_url]
  ∧ dom (fs (snd first)) = {[ _path g ++ "repository_data"; _path g ++ "METADATA" ]}
  ∧ fst second = fst first
  ∧ requests (snd second) = requests (snd first).
Proof. vm_compute. repeat split. Qed.




(** What [_get_data] does when the remote is asked and its answer is
    classified as a definitive error. *)
Lemma get_data_definitive_error cfg today net k url s :
  classify net = DefinitiveError →
  requests (snd (_get_data cfg today net k url s)) ≠ requests s →
  _get_data cfg today net k url s =
  (Raise GithubError,
   recorded today k (_path (self s) ++ k ++ "_ERROR_GITHUB") FEmpty
     (asked k url (refreshed s))).
Proof.
  intros Hc Hr. rewrite get_data_eq, (sent_not_served _ _ _ _ _ _ Hr).
  by rewrite get_data_update_eq, Hc, refreshed_path.
Qed.









(** C2, as stated, fails: a data file fetched on one day is still there
    when, the entry having expired, the remote answers with a definitive
    error and the marker is written next to it. *)
Lemma data_file_and_marker_coexist :
  let s1 := snd (_get_data default_config 736000 ok_response "readme" kana_url empty_cache) in
  let s2 := snd (_get_data default_config 736007 not_found_response "readme" kana_url s1) in
  is_Some (fs s2 !! (_path kana ++ "readme"))
  ∧ is_Some (fs s2 !! (_path kana ++ "readme" ++ "_ERROR_GITHUB")).
Proof. vm_compute. eauto. Qed.

(** C2, amended: whenever [_get_data] returns a payload for a key, no
    error marker for that key is on disk afterwards: a marker that is
    served makes the call fail, and a marker there was is removed before
    the remote is asked. *)
Theorem payload_returned_no_marker cfg today net k url s data :
  fst (_get_data cfg today net k url s) = Val data →
  fs (snd (_get_data cfg today net k url s)) !! (_path (self s) ++ k ++ "_ERROR_GITHUB")
  = None.
Proof.
  rewrite get_data_eq. unfold served.
  destruct (valid_now cfg today s k).
  - unfold exists_marker. case_bool_decide as Hm; cbn; [done|].
    destruct (fs s !! (_path (self s) ++ k) ≫= json_load) as [d|]; cbn.
    + intros _. rewrite refreshed_fs. by apply eq_None_not_Some.
    + rewrite get_data_update_eq.
      destruct (classify net); cbn; try done. intros _.
      rewrite !refreshed_path, refreshed_fs.
      rewrite lookup_insert_ne by (apply not_eq_sym, marker_ne_metadata).
      rewrite lookup_insert_ne by (apply not_eq_sym, marker_ne_data).
      apply lookup_delete_eq.
  - rewrite get_data_update_eq.
    destruct (classify net); cbn; try done. intros _.
    rewrite !refreshed_path, refreshed_fs.
    rewrite lookup_insert_ne by (apply not_eq_sym, marker_ne_metadata).
    rewrite lookup_insert_ne by (apply not_eq_sym, marker_ne_data).
    apply lookup_delete_eq.
Qed.

Lemma payload_returned_no_marker_witness :
  let s := {| self := kana;
              fs := {[ _path kana ++ "readme" ++ "_ERROR_GITHUB" := FEmpty ]};
              requests := [] |} in
  fs (snd (_get_data default_config 736000 ok_response "readme" kana_url s))
    !! (_path kana ++ "readme" ++ "_ERROR_GITHUB") = None.
Proof.
  intros s.
  apply (payload_returned_no_marker default_config 736000 ok_response
           "readme" kana_url s (JDict {[ "name" := JStr "kana-keyboard" ]})).
  reflexivity.
Defined.




(** ** Properties of stale-lock recovery *)

Module UtilityClaims.
Import Utility UtilitySpec UtilityFacts.
Local Open Scope list_scope.




End UtilityClaims.

(** ** Properties of the batch scheduler *)

Module ProcessorClaims.
Import Processor ProcessorSpec ProcessorFacts.
Local Open Scope list_scope.

(** A run in which the first worker dies holding its item. *)
Example batch_with_a_dead_worker :
  batch label two_workers 4 ["a"; "b"]
    [WorkerGet 0; WorkerDie 0 1; WorkerGet 1; WorkerPut 1; WorkerEmpty 1;
     AllDead; Drain; Finish]
  = Some ([("b", "DEV")],
          Some {| input := ["a"; "b"]; queue_input := []; queue_output := [];
                  processes := [Exited 1; Exited 0];
                  results := [("b", "DEV")];
                  at_phase := Returned;
                  log := [LogFailed 1; LogMissing 2 1] |}).
Proof. reflexivity. Qed.

(** A run in which no worker dies. *)
Example batch_with_two_workers :
  batch label two_workers 4 ["a"; "b"]
    [WorkerGet 0; WorkerGet 1; WorkerPut 1; Drain; WorkerPut 0;
     WorkerEmpty 1; WorkerEmpty 0; AllDead; Drain; Finish]
  = Some ([("b", "DEV"); ("a", "DEV")],
          Some {| input := ["a"; "b"]; queue_input := []; queue_output := [];
                  processes := [Exited 0; Exited 0];
                  results := [("b", "DEV"); ("a", "DEV")];
                  at_phase := Returned;
                  log := [] |}).
Proof. reflexivity. Qed.



(** C10: on an empty input [batch] returns the empty list at once,
    whatever the schedule: no queue and no process comes to exist. *)
Theorem batch_empty_input {item result : Type} (classify_item : item → result)
    (cfg : Config) (cpu_count : Z) (schedule : list action) :
  batch classify_item cfg cpu_count [] schedule = Some ([], None).
Proof. reflexivity. Qed.

End ProcessorClaims.

(** ** Further properties: the best class *)

Module UtilityClassesProps.
Import UtilityClasses.
Local Open Scope list_scope.

Lemma get_best_class_loop_low items : ∀ best best_class,
  Forall (λ e, (snd e <= best)%Q) items →
  get_best_class_loop items best best_class = best_class.
Proof.
  induction items as [|[c v] items IH]; intros best best_class H; [done|].
  apply Forall_cons in H as [Hv H]. cbn in *.
  rewrite (proj2 (Qle_bool_iff v best) Hv). cbn. by apply IH.
Qed.

Lemma get_best_class_loop_high items : ∀ best best_class,
  Exists (λ e, (best < snd e)%Q) items →
  ∃ pre c v post,
    items = pre ++ (c, v) :: post
    ∧ get_best_class_loop items best best_class = c
    ∧ (best < v)%Q
    ∧ Forall (λ e, (snd e < v)%Q) pre
    ∧ Forall (λ e, (snd e <= v)%Q) post.
Proof.
  induction items as [|[c v] items IH]; intros best best_class H.
  { by apply Exists_nil in H. }
  cbn. destruct (Qle_bool v best) eqn:Hle; cbn.
  - apply Qle_bool_iff in Hle.
    apply Exists_cons in H as [H|H].
    { cbn in H. exfalso. by apply (Qlt_not_le _ _ H). }
    destruct (IH best best_class H) as (pre & c' & v' & post & -> & Hr & Hb & Hpre & Hpost).
    exists ((c, v) :: pre), c', v', post. repeat split; try done.
    apply Forall_cons. split; [|done]. cbn. by apply Qle_lt_trans with best.
  - assert (Hlt : (best < v)%Q).
    { apply Qnot_le_lt. intros Hc. apply Qle_bool_iff in Hc. congruence. }
    assert (Hdec : ∀ e : string * Q, {(v < snd e)%Q} + {¬ (v < snd e)%Q}).
    { intros e. destruct (Qlt_le_dec v (snd e)); [by left|right].
      by apply Qle_not_lt. }
    destruct (List.Exists_dec (λ e : string * Q, (v < snd e)%Q) items Hdec) as [Hex|Hno].
    + destruct (IH v c Hex) as (pre & c' & v' & post & -> & Hr & Hb & Hpre & Hpost).
      exists ((c, v) :: pre), c', v', post. repeat split; try done.
      * by apply Qlt_trans with v.
      * apply Forall_cons. by split.
    + exists [], c, v, items. repeat split; try done.
      * apply get_best_class_loop_low.
        apply Forall_forall. intros e He. apply Qnot_lt_le. intros Hc.
        apply Hno. apply Exists_exists. by exists e.
      * apply Forall_forall. intros e He. apply Qnot_lt_le. intros Hc.
        apply Hno. apply Exists_exists. by exists e.
Qed.

(** X1: when no value of the dict exceeds -1, and so for the empty dict,
    [get_best_class] returns the empty string. *)
Theorem get_best_class_nothing_above (dict : list (string * Q)) :
  Forall (λ e, (snd e <= -1)%Q) dict →
  get_best_class dict = "".
Proof. apply get_best_class_loop_low. Qed.

Lemma get_best_class_nothing_above_witness :
  get_best_class [("DEV", (-1)%Q); ("HW", (-3 # 2)%Q)] = "".
Proof.
  apply (get_best_class_nothing_above [("DEV", (-1)%Q); ("HW", (-3 # 2)%Q)]).
  repeat constructor; cbn; discriminate.
Defined.

(** X2: when some value exceeds -1, [get_best_class] returns a key whose
    value is the greatest of the dict, and among the keys of that value
    the first in iteration order: every item before it has a smaller
    value, none after it a greater one. *)
Theorem get_best_class_first_maximum (dict : list (string * Q)) :
  Exists (λ e, (-1 < snd e)%Q) dict →
  ∃ pre v post,
    dict = pre ++ (get_best_class dict, v) :: post
    ∧ (-1 < v)%Q
    ∧ Forall (λ e, (snd e < v)%Q) pre
    ∧ Forall (λ e, (snd e <= v)%Q) post.
Proof.
  intros H.
  destruct (get_best_class_loop_high dict (-1)%Q "" H)
    as (pre & c & v & post & Hd & Hr & Hb & Hpre & Hpost).
  exists pre, v, post. unfold get_best_class. by rewrite Hr.
Qed.

Lemma get_best_class_first_maximum_witness :
  ∃ pre v post,
    [("DEV", (1 # 10)%Q); ("HW", (1 # 2)%Q); ("EDU", (1 # 2)%Q)]
    = pre ++ (get_best_class [("DEV", (1 # 10)%Q); ("HW", (1 # 2)%Q); ("EDU", (1 # 2)%Q)], v)
             :: post
    ∧ (-1 < v)%Q
    ∧ Forall (λ e, (snd e < v)%Q) pre
    ∧ Forall (λ e, (snd e <= v)%Q) post.
Proof.
  apply (get_best_class_first_maximum
           [("DEV", (1 # 10)%Q); ("HW", (1 # 2)%Q); ("EDU", (1 # 2)%Q)]).
  apply Exists_cons_hd. reflexivity.
Defined.

End UtilityClassesProps.

(** ** Further properties: the edit distance *)

Module EditDistanceProps.
Import EditDistance EditDistanceSpec EditDistanceFacts.

(** X3: against the empty string the distance is the length of the other
    string times the cost of an insertion, for an empty source, or of a
    deletion, for an empty target; between two empty strings it is 0. *)
Theorem edit_distance_empty (s : text) (cost_ins cost_del cost_sub : Z) :
  edit_distance s [] cost_ins cost_del cost_sub = Z.of_nat (length s) * cost_ins
  ∧ edit_distance [] s cost_ins cost_del cost_sub = Z.of_nat (length s) * cost_del.
Proof.
  rewrite !edit_distance_distance. split.
  - apply distance_0_r.
  - done.
Qed.



(** X5: exchanging the two strings together with the costs of insertion
    and deletion leaves the distance as it is; with equal costs of
    insertion and deletion the distance is symmetric. *)
Theorem edit_distance_swap (target source : text)
    (cost_ins cost_del cost_sub : Z) :
  edit_distance target source cost_ins cost_del cost_sub
  = edit_distance source target cost_del cost_ins cost_sub.
Proof. rewrite !edit_distance_distance. apply distance_swap. Qed.

(** X6: with the default costs, all 1, the distance lies between the
    difference of the two lengths and the greater of them. *)
Theorem edit_distance_default_bounds (target source : text) :
  Z.abs (Z.of_nat (length target) - Z.of_nat (length source))
    ≤ edit_distance target source 1 1 1
  ∧ edit_distance target source 1 1 1
    ≤ Z.max (Z.of_nat (length target)) (Z.of_nat (length source)).
Proof. rewrite edit_distance_distance. apply distance_unit_bounds. Qed.

End EditDistanceProps.

(** ** URLs: what [validate_url] accepts and [get_dev_and_repo] returns *)

Module UrlProps.
Import Url UrlSpec UrlFacts.
Local Open Scope list_scope.

(** X7: the URL [Github.get_repo_url] gives for a developer and a
    repository whose names are made of letters, digits, [-], [_] and [.]
    is accepted by [validate_url], and [get_dev_and_repo] gives the two
    names back. *)
Theorem repo_url_round_trip (g : Github) :
  all_chars name_char (_dev g) = true →
  all_chars name_char (_repo g) = true →
  validate_url (get_repo_url g) = true
  ∧ get_dev_and_repo (get_repo_url g) = (_dev g, _repo g).
Proof.
  intros Hdev Hrepo. unfold validate_url, get_dev_and_repo, get_repo_url.
  rewrite (strip_repo_url _ _ Hrepo), (match_repo_url _ _ Hdev Hrepo).
  split; [by apply bool_decide_eq_true|].
  unfold group. rewrite lookup_insert_ne by done.
  by rewrite !lookup_insert_eq.
Qed.

Lemma repo_url_round_trip_witness :
  validate_url (get_repo_url kana) = true
  ∧ get_dev_and_repo (get_repo_url kana) = ("Top-Ranger", "kana-keyboard").
Proof. apply (repo_url_round_trip kana); reflexivity. Defined.

(** X8: for every string, either [validate_url] rejects it and
    [get_dev_and_repo] returns the pair of empty strings, or
    [validate_url] accepts it and the stripped string ends in
    [dev/repo] or [dev/repo/], where [dev] and [repo] are what
    [get_dev_and_repo] returns and are made of letters, digits, [-],
    [_] and [.] only; either of them may be empty. *)
Theorem url_rejected_or_split (url : string) :
  (validate_url url = false ∧ get_dev_and_repo url = ("", ""))
  ∨ (validate_url url = true
     ∧ ∃ pre dev repo post,
         strip url = pre +:+ dev +:+ "/" +:+ repo +:+ post
         ∧ get_dev_and_repo url = (dev, repo)
         ∧ all_chars name_char dev = true
         ∧ all_chars name_char repo = true
         ∧ (post = "" ∨ post = "/")).
Proof.
  unfold validate_url, get_dev_and_repo.
  destruct (re_match _URL_RE (strip url)) as [m|] eqn:Hm.
  - right. split; [by apply bool_decide_eq_true|].
    destruct (match_sound _ _ Hm) as (pre & dev & repo & post & Hs & -> & Hdev & Hrepo & Hpost).
    exists pre, dev, repo, post. split; [done|]. split.
    { unfold group. rewrite lookup_insert_ne by done. by rewrite !lookup_insert_eq. }
    do 2 (split; [done|]).
    destruct Hpost as [->|[->|[->| ->]]]; auto; exfalso.
    + assert (isspace newline = false) as H; [|done].
      apply (rstrip_last_not_space (lstrip url) (pre +:+ dev +:+ "/" +:+ repo)).
      fold (strip url). rewrite Hs. by rewrite !string_app_assoc.
    + assert (isspace newline = false) as H; [|done].
      apply (rstrip_last_not_space (lstrip url) (pre +:+ dev +:+ "/" +:+ repo +:+ "/")).
      fold (strip url). rewrite Hs. by rewrite !string_app_assoc.
  - left. split; [|done]. apply bool_decide_eq_false. by intros [? ?].
Qed.

(** X9: the [(?!\\.git)] of the pattern never decides anything: on every
    string, [_URL_RE] matches exactly when the pattern without it
    matches, and with the same groups. *)
Theorem lookahead_never_rejects (s : string) :
  re_match _URL_RE s = re_match _URL_RE_without_lookahead s.
Proof. apply re_match_without_lookahead. Qed.

(** X10: a URL that ends in [.git] is accepted, and the repository
    name [get_dev_and_repo] returns for it keeps the [.git]. *)
Theorem dot_git_url_accepted (dev repo : string) :
  all_chars name_char dev = true →
  all_chars name_char repo = true →
  let url := "https://github.com/" +:+ dev +:+ "/" +:+ repo +:+ ".git" in
  validate_url url = true ∧ get_dev_and_repo url = (dev, repo +:+ ".git").
Proof.
  intros Hdev Hrepo.
  assert (all_chars name_char (repo +:+ ".git") = true) as Hgit.
  { rewrite all_chars_app, Hrepo. reflexivity. }
  cbv zeta. unfold validate_url, get_dev_and_repo.
  rewrite (strip_repo_url _ _ Hgit), (match_repo_url _ _ Hdev Hgit).
  split; [by apply bool_decide_eq_true|].
  unfold group. rewrite lookup_insert_ne by done.
  by rewrite !lookup_insert_eq.
Qed.

Lemma dot_git_url_accepted_witness :
  validate_url "https://github.com/Top-Ranger/ClassifyHub.git" = true
  ∧ get_dev_and_repo "https://github.com/Top-Ranger/ClassifyHub.git"
    = ("Top-Ranger", "ClassifyHub.git").
Proof. apply (dot_git_url_accepted "Top-Ranger" "ClassifyHub"); reflexivity. Defined.

(** X11: white space before and after a URL changes neither what
    [validate_url] answers nor what [get_dev_and_repo] returns. *)
Theorem surrounding_space_ignored (before url after : string) :
  all_chars isspace before = true →
  all_chars isspace after = true →
  validate_url (before +:+ url +:+ after) = validate_url url
  ∧ get_dev_and_repo (before +:+ url +:+ after) = get_dev_and_repo url.
Proof.
  intros Hb Ha. unfold validate_url, get_dev_and_repo.
  by rewrite (strip_surrounded _ _ _ Hb Ha).
Qed.

Lemma surrounding_space_ignored_witness :
  validate_url ("  " +:+ "github.com/a/b" +:+ String newline "") = validate_url "github.com/a/b"
  ∧ get_dev_and_repo ("  " +:+ "github.com/a/b" +:+ String newline "")
    = get_dev_and_repo "github.com/a/b".
Proof. apply (surrounding_space_ignored "  " "github.com/a/b" (String newline "")); reflexivity. Defined.

End UrlProps.

(** ** The batch scheduler: which results [batch] returns *)

Module ProcessorProps.
Import Processor ProcessorSpec ProcessorFacts ProcessorContent ProcessorContentFacts.
Local Open Scope list_scope.





End ProcessorProps.

(** ** The queries of [Github] *)

Module GithubQueriesProps.
Import UrlSpec GithubQueriesSpec GithubQueriesFacts.

(** X14: [repository_exists] never raises [GithubError]: whatever the
    cache holds and whatever the remote does, it returns or raises
    another exception. *)
Theorem repository_exists_no_github_error cfg today net s :
  fst (repository_exists cfg today net s) ≠ Raise GithubError
  ∧ fst (repository_exists cfg today net s) ≠ Raise GithubConnectionError.
Proof.
  assert (H : ∀ e, fst (repository_exists cfg today net s) = Raise e →
                   e ≠ GithubError ∧ e ≠ GithubConnectionError).
  { intros e. unfold repository_exists, catch, bind at 1.
    destruct (get_repository_data cfg today net s) as [[data|e'] s1].
    - unfold says_not_found, bind, lift, ret.
      destruct (py_in "message" data) as [[]|e'] eqn:Hin; cbn.
      + destruct (py_getitem data "message") as [m|e'] eqn:Hget; cbn; [done|].
        apply py_getitem_raises in Hget as [-> | ->]; cbn; by intros [= <-].
      + done.
      + apply py_in_raises in Hin as ->. cbn. by intros [= <-].
    - destruct e'; cbn; try done; by intros [= <-]. }
  split; intros Heq; by destruct (H _ Heq).
Qed.



(** X16: the cache keys of [get_repository_content] and [get_tree]
    contain no [/], whatever the path or the branch: the cache file of
    either lies in the directory of the repository itself. *)
Theorem cache_keys_without_slash (name : string) :
  all_chars (is_not "/") (content_key name) = true
  ∧ all_chars (is_not "/") (tree_key name) = true.
Proof. split; by apply replace_without. Qed.





End GithubQueriesProps.

(** ** Validation: precision, recall and the folds *)

Module ValidateProps.
Import Validate ValidateSpec ValidateFacts.
Local Open Scope list_scope.

(** X19: whatever the truth and the results, the precision and the
    recall of a class lie between 0 and 1. *)
Theorem precision_recall_bounds (truth results : list entry) (target_class : string) :
  (0 <= calculate_precision truth results target_class <= 1)%Q
  ∧ (0 <= calculate_recall truth results target_class <= 1)%Q.
Proof.
  rewrite calculate_precision_eq, calculate_recall_eq, !counters_eq.
  pose proof (count_step_le truth target_class results 0 0 (le_n _)) as Hp.
  pose proof (count_step_le results target_class truth 0 0 (le_n _)) as Hr.
  destruct (fold_left (count_step truth _) _ _) as [count tp].
  destruct (fold_left (count_step results _) _ _) as [count' tp'].
  split; by apply ratio_bounds.
Qed.

(** X20: the recall of a class is the precision of that class with
    truth and results exchanged: the two functions, each with its own
    two loops, compute the same from exchanged arguments. *)
Theorem recall_is_swapped_precision (truth results : list entry) (target_class : string) :
  calculate_recall truth results target_class
  = calculate_precision results truth target_class.
Proof. by rewrite calculate_recall_eq, calculate_precision_eq. Qed.

(** X21: when the truth has one entry for each repository and the
    results are the entries of the truth in some order, the precision
    and the recall of every class of the truth are 1. *)
Theorem perfect_results (truth results : list entry) (target_class : string) :
  NoDup (map repo_key truth) →
  results ≡ₚ truth →
  target_class ∈ map snd truth →
  (calculate_precision truth results target_class == 1)%Q
  ∧ (calculate_recall truth results target_class == 1)%Q.
Proof.
  intros Hnd Hperm Hc.
  assert (Hnd' : NoDup (map repo_key results)).
  { by rewrite (Permutation_map repo_key Hperm). }
  assert (Hc' : target_class ∈ map snd results).
  { by rewrite (Permutation_map snd Hperm). }
  rewrite calculate_precision_eq, calculate_recall_eq, !counters_eq. split.
  - destruct (count_step_agree truth target_class results) with (n := 0%nat)
      as (m & -> & _ & Hm).
    { intros data Hin Hcls. rewrite first_agrees_unique; [|done|by rewrite <- Hperm].
      by apply String.eqb_eq. }
    apply ratio_full. by apply Hm.
  - destruct (count_step_agree results target_class truth) with (n := 0%nat)
      as (m & -> & _ & Hm).
    { intros data Hin Hcls. rewrite first_agrees_unique; [|done|by rewrite Hperm].
      by apply String.eqb_eq. }
    apply ratio_full. by apply Hm.
Qed.

Lemma perfect_results_witness :
  (calculate_precision small_truth (reverse small_truth) "WEB" == 1)%Q
  ∧ (calculate_recall small_truth (reverse small_truth) "WEB" == 1)%Q.
Proof.
  apply (perfect_results small_truth (reverse small_truth) "WEB").
  - cbn. apply NoDup_cons. split.
    + intros [H|H]%elem_of_cons; [discriminate H|by apply elem_of_nil in H].
    + apply NoDup_singleton.
  - apply reverse_Permutation.
  - cbn. apply elem_of_cons. right. apply elem_of_cons. by left.
Defined.

(** X22: whatever [random.randint] returns within its bounds, the
    folds hold the data, every entry once; and in each run the learning
    set and the validation set together hold the data, every entry
    once, the validation set being the fold of the run. *)
Theorem folds_partition {A} (k_fold : nat) (randint : nat → nat) (data : list A)
    (run : nat) :
  (∀ n, randint n < k_fold)%nat →
  (run < k_fold)%nat →
  let datasets := folds k_fold randint data in
  let '(learn, truth) := run_sets k_fold run datasets in
  length datasets = k_fold
  ∧ concat datasets ≡ₚ data
  ∧ datasets !! run = Some truth
  ∧ learn ++ truth ≡ₚ data.
Proof.
  intros Hr Hrun datasets.
  destruct (assign_concat randint data 0 (replicate k_fold [])) as [Hlen Hperm].
  { intros i. rewrite length_replicate. apply Hr. }
  rewrite length_replicate in Hlen. rewrite concat_replicate_nil in Hperm.
  fold (folds k_fold randint data) in Hlen, Hperm. fold datasets in Hlen, Hperm.
  pose proof (run_sets_spec run datasets) as Hsets. rewrite Hlen in Hsets.
  destruct (run_sets k_fold run datasets) as [learn truth].
  destruct Hsets as [Ht Hp]; [done|].
  destruct (lookup_lt_is_Some_2 datasets run) as [fold Hfold]; [lia|].
  rewrite Hfold in Ht. cbn in Ht. subst truth.
  repeat split; try done. by rewrite Hp.
Qed.

Lemma folds_partition_witness :
  let datasets := folds 2 (λ n, n mod 2)%nat [10; 20; 30]%nat in
  let '(learn, truth) := run_sets 2 1 datasets in
  length datasets = 2%nat
  ∧ concat datasets ≡ₚ [10; 20; 30]%nat
  ∧ datasets !! 1%nat = Some truth
  ∧ learn ++ truth ≡ₚ [10; 20; 30]%nat.
Proof.
  apply (folds_partition 2 (λ n, n mod 2)%nat [10; 20; 30]%nat 1).
  - intros n. apply Nat.mod_upper_bound. discriminate.
  - apply le_n.
Defined.

End ValidateProps.

(** ** Reading the input *)

Module ProcessorInputProps.
Import Url UrlSpec UrlFacts UtilityClasses ProcessorInput ProcessorInputSpec
  ProcessorInputFacts.
Local Open Scope list_scope.

(** X23: from a file that holds, line by line, the URLs
    [Github.get_repo_url] gives for repositories whose names are made
    of letters, digits, [-], [_] and [.], [file_to_input] returns the
    objects for these repositories, in the order of the lines. *)
Theorem file_to_input_of_repo_urls cfg secret disk path (gs : list Github) intact :
  disk !! path = Some (TextFile (map url_line gs) intact) →
  Forall well_named gs →
  file_to_input cfg secret disk path
  = map (λ g, Github_init cfg secret (_dev g) (_repo g)) gs.
Proof.
  intros Hfile Hgs. rewrite (file_to_input_lines _ _ _ _ _ _ Hfile). clear Hfile.
  induction Hgs as [|g gs Hg _ IH]; [done|]. cbn.
  by rewrite (parsed_url_line _ _ _ Hg), IH.
Qed.

Lemma file_to_input_of_repo_urls_witness :
  file_to_input default_config anonymous
    {[ "./data/input.txt" := TextFile (map url_line [kana]) true ]} "./data/input.txt"
  = map (λ g, Github_init default_config anonymous (_dev g) (_repo g)) [kana].
Proof.
  apply (file_to_input_of_repo_urls default_config anonymous
           {[ "./data/input.txt" := TextFile (map url_line [kana]) true ]}
           "./data/input.txt" [kana] true).
  - reflexivity.
  - constructor; [split; reflexivity|constructor].
Defined.

(** X24: every object [file_to_input] returns comes from a line of the
    file at the path that, stripped, [validate_url] accepts; its
    developer and repository are what [get_dev_and_repo] gives for the
    stripped line, and they are made of letters, digits, [-], [_] and
    [.] only.  Nothing comes from a path where there is no file. *)
Theorem file_to_input_sound cfg secret disk path g :
  g ∈ file_to_input cfg secret disk path →
  well_named g
  ∧ ∃ lines intact line,
      disk !! path = Some (TextFile lines intact)
      ∧ line ∈ lines
      ∧ validate_url (strip line) = true
      ∧ get_dev_and_repo (strip line) = (_dev g, _repo g).
Proof.
  intros (lines & intact & line & Hfile & Hline & Hg)%file_to_input_inv.
  split; [by apply parsed_well_named with cfg secret line|].
  exists lines, intact, line. do 2 (split; [done|]).
  apply parsed_inv in Hg as [Hvalid ->]. split; [done|].
  cbn. by destruct (get_dev_and_repo (strip line)).
Qed.

Lemma file_to_input_sound_witness :
  well_named kana
  ∧ ∃ lines intact line,
      small_disk !! "./data/input.txt" = Some (TextFile lines intact)
      ∧ line ∈ lines
      ∧ validate_url (strip line) = true
      ∧ get_dev_and_repo (strip line) = (_dev kana, _repo kana).
Proof.
  apply (file_to_input_sound default_config anonymous small_disk "./data/input.txt" kana).
  vm_compute. apply list_elem_of_here.
Defined.

(** X25: every entry [dir_to_learning] returns is labelled with one of
    the seven classes and holds an object [file_to_input] returns for
    the file of that class; and when the file of one class is missing,
    [dir_to_learning] returns nothing at all, whatever the other files
    hold. *)
Theorem dir_to_learning_labels cfg secret disk path :
  Forall (λ e, snd e ∈ get_classes
               ∧ fst e ∈ file_to_input cfg secret disk (path +:+ "/" +:+ snd e))
    (dir_to_learning cfg secret disk path)
  ∧ (∀ file, file ∈ get_classes → disk !! (path +:+ "/" +:+ file) = None →
             dir_to_learning cfg secret disk path = []).
Proof.
  rewrite dir_to_learning_eq. split.
  - destruct (negb _); [done|]. destruct (existsb _ _); [done|].
    apply Forall_forall. intros [g c] Hin.
    apply list_elem_of_In, in_flat_map in Hin as (file & Hfile & Hin).
    apply in_map_iff in Hin as (d & [= -> ->] & Hd). cbn.
    by rewrite !list_elem_of_In.
  - intros file Hfile Hnone. destruct (negb _); [done|].
    rewrite (proj2 (existsb_exists _ _)); [done|].
    exists file. split; [by apply list_elem_of_In|].
    unfold exists_path. rewrite Hnone. apply negb_true_iff, bool_decide_eq_false.
    by intros [? ?].
Qed.

Lemma dir_to_learning_labels_witness :
  dir_to_learning default_config anonymous small_disk "./data/learning" = [].
Proof.
  apply (proj2 (dir_to_learning_labels default_config anonymous small_disk
                  "./data/learning") "OTHER").
  - unfold get_classes. do 6 apply list_elem_of_further. apply list_elem_of_here.
  - reflexivity.
Defined.

End ProcessorInputProps.
